(** * Downside-up Communicator: Morse terminal, text transforms, history store

    A shallow embedding of [src/App.tsx] (the React component
    [UpsideDownCommunicator]) and of [src/db/database.ts] (the [TransmissionDB]
    wrapper around the SQLite table [transmissions]), followed by the
    properties of the Morse table, the three text transforms, the transmit
    handlers, the transmission effect and the history queries.

    Conventions.
    - A JavaScript string is the list of its UTF-16 code units, each a [Z]
      in [0, 65536); [wf_string] states the range where a proof needs it.
    - A JavaScript number that the program only ever uses as an integer
      ([caesarShift], code points, the parsed XOR key) is a [Z]; [NaN] is the
      [None] of an [option Z].  The bit operators work on the 32-bit
      two's-complement image of their operands, [toInt32].
    - [String.prototype.toUpperCase] is the one library function that cannot be
      written out (it follows the Unicode case tables); it is a Section
      variable.  The properties that depend on what it does assume that it
      upper-cases the ASCII letters of an ASCII string and leaves its other
      code units alone ([asciiUpper]).
    - The callback of [text.split('').map(char => ...)] is written on the
      code unit of the one-character string [char].
    - A handler returns the state after its [set...] calls and the list of
      what it does besides ([Event]); the callback of a [setTimeout] is a
      function of its own. *)

From Stdlib Require Import ZArith Lia Bool Ascii String.
From Stdlib Require HexadecimalPos HexadecimalZ.
From stdpp Require Import gmap list strings.

Open Scope Z_scope.

(** ** JavaScript strings *)

Abbreviation jsstring := (list Z) (only parsing).

(** The code units of an ASCII literal. *)
Definition js (s : string) : jsstring :=
  (λ a, Z.of_N (N_of_ascii a)) <$> list_ascii_of_string s.

Definition wf_char (c : Z) : Prop := 0 <= c < 65536.
Definition wf_string (s : jsstring) : Prop := Forall wf_char s.

Definition is_ascii (s : jsstring) : Prop := Forall (λ c, 0 <= c < 128) s.

(** [ToInt32]: the signed 32-bit image of an integer. *)
Definition toInt32 (x : Z) : Z := (x + 2 ^ 31) mod 2 ^ 32 - 2 ^ 31.

(** [ToUint16], as applied by [String.fromCharCode]. *)
Definition toUint16 (x : Z) : Z := x mod 65536.

(** [a ^ b] *)
Definition js_xor (a b : Z) : Z := toInt32 (Z.lxor (toInt32 a) (toInt32 b)).

(** [a << n], for a shift count in [0, 32) *)
Definition js_shl (a n : Z) : Z := toInt32 (Z.shiftl (toInt32 a) n).

(** [a >> n], for a shift count in [0, 32) *)
Definition js_sar (a n : Z) : Z := Z.shiftr (toInt32 a) n.

(** [a & b] *)
Definition js_and (a b : Z) : Z := toInt32 (Z.land (toInt32 a) (toInt32 b)).

(** [String.fromCharCode(x)] *)
Definition fromCharCode (x : Z) : jsstring := [toUint16 x].

(** The upper-casing of one ASCII code unit; other code units are kept. *)
Definition asciiUpperChar (c : Z) : Z :=
  if (97 <=? c) && (c <=? 122) then c - 32 else c.

Definition asciiUpper (s : jsstring) : jsstring := asciiUpperChar <$> s.

(** *** White space and [trim] *)

(** The [WhiteSpace] and [LineTerminator] code points of ECMAScript, the set
    that [String.prototype.trim] and [parseInt] strip. *)
Definition isWhiteSpace (c : Z) : bool :=
  bool_decide (c ∈ [9; 10; 11; 12; 13; 32; 160; 5760; 8232; 8233; 8239; 8287;
                    12288; 65279])
  || ((8192 <=? c) && (c <=? 8202)).

Fixpoint dropWhile {A} (p : A → bool) (l : list A) : list A :=
  match l with
  | [] => []
  | x :: l' => if p x then dropWhile p l' else l
  end.

Definition trimStart (s : jsstring) : jsstring := dropWhile isWhiteSpace s.
Definition trimEnd (s : jsstring) : jsstring :=
  reverse (dropWhile isWhiteSpace (reverse s)).

(** [s.trim()] *)
Definition trim (s : jsstring) : jsstring := trimEnd (trimStart s).

(** The truth value of a string in a condition: the empty string is falsy. *)
Definition truthy (s : jsstring) : bool :=
  match s with [] => false | _ => true end.

(** *** Numbers to strings *)

Fixpoint dec_digits (u : Decimal.uint) : jsstring :=
  match u with
  | Decimal.Nil => []
  | Decimal.D0 u => 48 :: dec_digits u
  | Decimal.D1 u => 49 :: dec_digits u
  | Decimal.D2 u => 50 :: dec_digits u
  | Decimal.D3 u => 51 :: dec_digits u
  | Decimal.D4 u => 52 :: dec_digits u
  | Decimal.D5 u => 53 :: dec_digits u
  | Decimal.D6 u => 54 :: dec_digits u
  | Decimal.D7 u => 55 :: dec_digits u
  | Decimal.D8 u => 56 :: dec_digits u
  | Decimal.D9 u => 57 :: dec_digits u
  end.

(** [String(n)] for an integer [n] (exact below 2^53 in magnitude, where
    every integer is a double and prints in plain decimal). *)
Definition numToString (n : Z) : jsstring :=
  match Z.to_int n with
  | Decimal.Pos u => dec_digits u
  | Decimal.Neg u => 45 :: dec_digits u
  end.

(** Lower-case hexadecimal digits, as [Number.prototype.toString(16)]
    prints them. *)
Fixpoint hex_digits (u : Hexadecimal.uint) : jsstring :=
  match u with
  | Hexadecimal.Nil => []
  | Hexadecimal.D0 u => 48 :: hex_digits u
  | Hexadecimal.D1 u => 49 :: hex_digits u
  | Hexadecimal.D2 u => 50 :: hex_digits u
  | Hexadecimal.D3 u => 51 :: hex_digits u
  | Hexadecimal.D4 u => 52 :: hex_digits u
  | Hexadecimal.D5 u => 53 :: hex_digits u
  | Hexadecimal.D6 u => 54 :: hex_digits u
  | Hexadecimal.D7 u => 55 :: hex_digits u
  | Hexadecimal.D8 u => 56 :: hex_digits u
  | Hexadecimal.D9 u => 57 :: hex_digits u
  | Hexadecimal.Da u => 97 :: hex_digits u
  | Hexadecimal.Db u => 98 :: hex_digits u
  | Hexadecimal.Dc u => 99 :: hex_digits u
  | Hexadecimal.Dd u => 100 :: hex_digits u
  | Hexadecimal.De u => 101 :: hex_digits u
  | Hexadecimal.Df u => 102 :: hex_digits u
  end.

(** [n.toString(16)]: a minus sign and the magnitude for a negative [n]. *)
Definition toString16 (n : Z) : jsstring :=
  match Z.to_hex_int n with
  | Hexadecimal.Pos u => hex_digits u
  | Hexadecimal.Neg u => 45 :: hex_digits u
  end.

(** Binary digits of a positive number, most significant first. *)
Fixpoint bin_digits (p : positive) : jsstring :=
  match p with
  | xH => [49]
  | xO p' => bin_digits p' ++ [48]
  | xI p' => bin_digits p' ++ [49]
  end.

(** [n.toString(2)] *)
Definition toString2 (n : Z) : jsstring :=
  match n with
  | Z0 => [48]
  | Zpos p => bin_digits p
  | Zneg p => 45 :: bin_digits p
  end.

(** [s.padStart(n, '0')] *)
Definition padStart0 (n : nat) (s : jsstring) : jsstring :=
  replicate (n - length s) 48 ++ s.

(** [parts.join(sep)] *)
Fixpoint join (sep : jsstring) (parts : list jsstring) : jsstring :=
  match parts with
  | [] => []
  | [p] => p
  | p :: rest => p ++ sep ++ join sep rest
  end.

(** *** [parseInt(s, 10)] *)

Definition isDigit (c : Z) : bool := (48 <=? c) && (c <=? 57).

(** The value of the longest prefix of decimal digits, given the value [acc]
    of the digits already read. *)
Fixpoint digitsValue (acc : Z) (s : jsstring) : Z :=
  match s with
  | c :: s' => if isDigit c then digitsValue (10 * acc + (c - 48)) s' else acc
  | [] => acc
  end.

Definition startsWithDigit (s : jsstring) : bool :=
  match s with c :: _ => isDigit c | [] => false end.

(** [parseInt(s, 10)]: leading white space is skipped, one sign is read, then
    the longest run of digits; [None] is [NaN].  (JavaScript rounds a value
    beyond 2^53 to a double; every property below that mentions the parsed
    key is proved for an arbitrary key number.) *)
Definition parseInt10 (s : jsstring) : option Z :=
  let s1 := trimStart s in
  let '(sign, s2) :=
    match s1 with
    | 45 :: r => (-1, r)
    | 43 :: r => (1, r)
    | _ => (1, s1)
    end in
  if startsWithDigit s2 then Some (sign * digitsValue 0 s2) else None.

(** [x || d] for a number [x]: [NaN] and [0] are falsy. *)
Definition numOr (x : option Z) (d : Z) : Z :=
  match x with
  | Some n => if n =? 0 then d else n
  | None => d
  end.

(** ** The Morse table *)

(** An object literal, or [Object.fromEntries]: the entries are written into
    the object in order, a later entry replacing an earlier one with the same
    key. *)
Definition fromEntries (l : list (jsstring * jsstring)) : gmap (list Z) (list Z) :=
  foldl (λ m kv, <[kv.1 := kv.2]> m) ∅ l.

Definition MORSE_ENTRIES : list (jsstring * jsstring) :=
  [ (js "A", js ".-"); (js "B", js "-..."); (js "C", js "-.-."); (js "D", js "-..");
    (js "E", js "."); (js "F", js "..-.");
    (js "G", js "--."); (js "H", js "...."); (js "I", js ".."); (js "J", js ".---");
    (js "K", js "-.-"); (js "L", js ".-..");
    (js "M", js "--"); (js "N", js "-."); (js "O", js "---"); (js "P", js ".--.");
    (js "Q", js "--.-"); (js "R", js ".-.");
    (js "S", js "..."); (js "T", js "-"); (js "U", js "..-"); (js "V", js "...-");
    (js "W", js ".--"); (js "X", js "-..-");
    (js "Y", js "-.--"); (js "Z", js "--.."); (js "0", js "-----"); (js "1", js ".----");
    (js "2", js "..---");
    (js "3", js "...--"); (js "4", js "....-"); (js "5", js "....."); (js "6", js "-....");
    (js "7", js "--...");
    (js "8", js "---.."); (js "9", js "----."); (js " ", js "/") ].

Definition MORSE_CODE : gmap (list Z) (list Z) := fromEntries MORSE_ENTRIES.

(** [Object.fromEntries(Object.entries(MORSE_CODE).map(([k, v]) => [v, k]))] *)
Definition REVERSE_MORSE : gmap (list Z) (list Z) :=
  fromEntries ((λ kv, (kv.2, kv.1)) <$> map_to_list MORSE_CODE).

(** ** The text transforms *)

(** The double nearest to the integer [z], ties to the even significand:
    what a sum of two doubles with the exact value [z] is rounded to.  Below
    2^53 in magnitude every integer is a double.  Beyond, [e] low bits do
    not fit into the 53 bits of the significand: [q] holds the bits kept and
    [r] the bits dropped. *)
Definition roundDouble (z : Z) : Z :=
  let a := Z.abs z in
  if a <? 2 ^ 53 then z
  else
    let e := Z.log2 a - 52 in
    let q := Z.shiftr a e in
    let r := a mod 2 ^ e in
    let half := 2 ^ (e - 1) in
    let q' := if (half <? r) || ((r =? half) && Z.odd q) then q + 1 else q in
    Z.sgn z * Z.shiftl q' e.

(** The callback of [caesarEncrypt], on the code unit [c] of [char].
    [shift] is the number in [caesarShift]: 3 or what [parseInt] gave, an
    integer that is a double.  [char.charCodeAt(0) - 65] is exact, the sum
    with [shift] is rounded to a double, and [%] and [+ 65] are exact on
    it. *)
Definition caesarChar (shift c : Z) : jsstring :=
  if (65 <=? c) && (c <=? 90)
  then fromCharCode (Z.rem (roundDouble (c - 65 + shift)) 26 + 65)
  else [c].

Definition caesarEncrypt (text : jsstring) (shift : Z) : jsstring :=
  join [] (caesarChar shift <$> text).

Definition toBinary (text : jsstring) : jsstring :=
  join (js " ") ((λ c, padStart0 8 (toString2 c)) <$> text).

Inductive EncryptionMode := none | caesar | binary | xor.

Definition modeName (m : EncryptionMode) : jsstring :=
  match m with
  | none => js "none" | caesar => js "caesar" | binary => js "binary" | xor => js "xor"
  end.

Record Encrypted := { display : jsstring; forMorse : jsstring }.

(** ** The glyph *)

Definition BLOCK_FULL : Z := 9608.   (* U+2588 *)
Definition BLOCK_LIGHT : Z := 9617.  (* U+2591 *)

(** The hash loop of [generateGlyph]. *)
Definition glyphHash (text : jsstring) : Z :=
  foldl (λ hash c, let h := js_shl hash 5 - hash + c in js_and h h) 0 text.

Definition glyphCell (text : jsstring) (hash : Z) (y x : nat) : bool :=
  let val := js_and (js_sar hash (Z.of_nat ((y * 4 + x) mod 32))) 1 in
  negb (val =? 0)
  || match text !! ((y + x) mod length text)%nat with
     | Some c => c mod 3 =? 0
     | None => false
     end.

Definition generateGlyph (text : jsstring) : jsstring :=
  let size := 8%nat in
  let grid0 : list (list Z) := replicate size (replicate size BLOCK_LIGHT) in
  let hash := glyphHash text in
  let grid :=
    foldl (λ g y,
      foldl (λ g x,
        if glyphCell text hash y x
        then alter (λ row, <[(size - 1 - x)%nat := BLOCK_FULL]> (<[x := BLOCK_FULL]> row)) y g
        else g) g (seq 0 (size / 2))) grid0 (seq 0 size) in
  join [10] grid.

(** ** The history store ([src/db/database.ts]) *)

Module TransmissionDB.

(** A row of the table [transmissions]; [created_at] is left out, no query
    below reads it. *)
Record Row := {
  id : Z;
  message : jsstring;
  encrypted : option jsstring;
  timestamp : jsstring;
  encryption_mode : jsstring
}.

(** The SQLite database: the rows of [transmissions] in insertion order and
    the largest row id ever handed out (the [sqlite_sequence] entry that
    [AUTOINCREMENT] keeps). *)
Record Database := {
  transmissions : list Row;
  sqlite_sequence : Z
}.

(** The singleton [transmissionDB] together with the [localStorage] slot
    [upside_down_db] it saves to. *)
Record t := {
  db : option Database;
  initialized : bool;
  localStorage : option Database
}.

(** The state of the module before [init]. *)
Definition fresh (saved : option Database) : t :=
  {| db := None; initialized := false; localStorage := saved |}.

Definition save (st : t) : t :=
  match db st with
  | None => st
  | Some d => {| db := db st; initialized := initialized st; localStorage := Some d |}
  end.

(** [new SQL.Database()] followed by [CREATE TABLE IF NOT EXISTS]. *)
Definition createTables (st : t) : t :=
  match db st with
  | None => st
  | Some _ => save st
  end.

Definition init (st : t) : t :=
  if initialized st then st
  else
    let st1 :=
      match localStorage st with
      | Some saved =>
          {| db := Some saved; initialized := initialized st; localStorage := localStorage st |}
      | None =>
          createTables
            {| db := Some {| transmissions := []; sqlite_sequence := 0 |};
               initialized := initialized st; localStorage := localStorage st |}
      end in
    {| db := db st1; initialized := true; localStorage := localStorage st1 |}.

Definition maxId (rows : list Row) : Z := foldr (λ r m, Z.max (id r) m) 0 rows.

(** [INSERT INTO transmissions (...) VALUES (?, ?, ?, ?)]: the new row takes
    the id after the largest one in the table or ever used. *)
Definition insertRow (message : jsstring) (encrypted : option jsstring)
    (timestamp encryptionMode : jsstring) (d : Database) : Database :=
  let newId := Z.max (maxId (transmissions d)) (sqlite_sequence d) + 1 in
  {| transmissions :=
       transmissions d ++
       [{| id := newId; message := message; encrypted := encrypted;
           timestamp := timestamp; encryption_mode := encryptionMode |}];
     sqlite_sequence := newId |}.

Definition addTransmission (message : jsstring) (encrypted : option jsstring)
    (timestamp encryptionMode : jsstring) (st : t) : t :=
  match db st with
  | None => st
  | Some d =>
      save {| db := Some (insertRow message encrypted timestamp encryptionMode d);
              initialized := initialized st; localStorage := localStorage st |}
  end.

(** [ORDER BY id DESC], as an insertion sort. *)
Fixpoint insertDesc (r : Row) (sorted : list Row) : list Row :=
  match sorted with
  | [] => [r]
  | r' :: rest => if id r' <? id r then r :: sorted else r' :: insertDesc r rest
  end.

Definition orderByIdDesc (rows : list Row) : list Row := foldr insertDesc [] rows.

(** [LIMIT ?]: a negative limit is no limit. *)
Definition sqlLimit (limit : Z) (rows : list Row) : list Row :=
  if limit <? 0 then rows else take (Z.to_nat limit) rows.

(** The objects [getAllTransmissions] returns have the fields of [Row]. *)
Definition getAllTransmissions (st : t) : list Row :=
  match db st with
  | None => []
  | Some d =>
      match orderByIdDesc (transmissions d) with
      | [] => []
      | values => values
      end
  end.

(** The objects [getRecentTransmissions] returns. *)
Record Recent := {
  r_message : jsstring;
  r_encrypted : option jsstring;
  r_timestamp : jsstring
}.

Definition toRecent (r : Row) : Recent :=
  {| r_message := message r; r_encrypted := encrypted r; r_timestamp := timestamp r |}.

(** [getRecentTransmissions(limit)]; the source's default limit is 10. *)
Definition getRecentTransmissions (limit : Z) (st : t) : list Recent :=
  match db st with
  | None => []
  | Some d =>
      match sqlLimit limit (orderByIdDesc (transmissions d)) with
      | [] => []
      | values => toRecent <$> values
      end
  end.

Definition clearAll (st : t) : t :=
  match db st with
  | None => st
  | Some d =>
      save {| db := Some {| transmissions := []; sqlite_sequence := sqlite_sequence d |};
              initialized := initialized st; localStorage := localStorage st |}
  end.

(** The row ids grow with the insertion order. *)
Definition ids_increasing (rows : list Row) : Prop :=
  ∀ i j ri rj, rows !! i = Some ri → rows !! j = Some rj → (i < j)%nat → id ri < id rj.

Definition wf (st : t) : Prop :=
  match db st with
  | None => True
  | Some d => ids_increasing (transmissions d)
  end.

(** One [addTransmission] per entry, in order. *)
Definition addAll (entries : list Recent) (mode : jsstring) (st : t) : t :=
  foldl (λ st e, addTransmission (r_message e) (r_encrypted e) (r_timestamp e) mode st)
        st entries.

End TransmissionDB.

(** ** The component state ([src/App.tsx]) *)

Inductive SignalType := dit | dah.

(** An element of [transmissionHistory]; [encrypted] is optional. *)
Record HistoryEntry := {
  h_message : jsstring;
  h_timestamp : jsstring;
  h_encrypted : option jsstring
}.

(** The state hooks that the transmit handlers and the transmission effect
    read or write, and the module-level [transmissionDB].  The hooks of the
    sanity meter, the channel dial and the decoder are not read by them. *)
Record AppState := {
  message : jsstring;
  morseOutput : list jsstring;
  isTransmitting : bool;
  currentSignalIndex : nat;
  transmissionHistory : list HistoryEntry;
  isFlashing : bool;
  currentSignalType : option SignalType;
  emergencyMode : bool;
  encryptionMode : EncryptionMode;
  caesarShift : Z;
  xorKey : jsstring;
  glyphCanvas : jsstring;
  showGlyph : bool;
  transmissionDB : TransmissionDB.t
}.

(** The state setters; each writes one hook. *)

Definition setMessage (v : jsstring) (s : AppState) : AppState :=
  {| message := v;
     morseOutput := morseOutput s;
     isTransmitting := isTransmitting s;
     currentSignalIndex := currentSignalIndex s;
     transmissionHistory := transmissionHistory s;
     isFlashing := isFlashing s;
     currentSignalType := currentSignalType s;
     emergencyMode := emergencyMode s;
     encryptionMode := encryptionMode s;
     caesarShift := caesarShift s;
     xorKey := xorKey s;
     glyphCanvas := glyphCanvas s;
     showGlyph := showGlyph s;
     transmissionDB := transmissionDB s |}.

Definition setMorseOutput (v : list jsstring) (s : AppState) : AppState :=
  {| message := message s;
     morseOutput := v;
     isTransmitting := isTransmitting s;
     currentSignalIndex := currentSignalIndex s;
     transmissionHistory := transmissionHistory s;
     isFlashing := isFlashing s;
     currentSignalType := currentSignalType s;
     emergencyMode := emergencyMode s;
     encryptionMode := encryptionMode s;
     caesarShift := caesarShift s;
     xorKey := xorKey s;
     glyphCanvas := glyphCanvas s;
     showGlyph := showGlyph s;
     transmissionDB := transmissionDB s |}.

Definition setIsTransmitting (v : bool) (s : AppState) : AppState :=
  {| message := message s;
     morseOutput := morseOutput s;
     isTransmitting := v;
     currentSignalIndex := currentSignalIndex s;
     transmissionHistory := transmissionHistory s;
     isFlashing := isFlashing s;
     currentSignalType := currentSignalType s;
     emergencyMode := emergencyMode s;
     encryptionMode := encryptionMode s;
     caesarShift := caesarShift s;
     xorKey := xorKey s;
     glyphCanvas := glyphCanvas s;
     showGlyph := showGlyph s;
     transmissionDB := transmissionDB s |}.

Definition setCurrentSignalIndex (v : nat) (s : AppState) : AppState :=
  {| message := message s;
     morseOutput := morseOutput s;
     isTransmitting := isTransmitting s;
     currentSignalIndex := v;
     transmissionHistory := transmissionHistory s;
     isFlashing := isFlashing s;
     currentSignalType := currentSignalType s;
     emergencyMode := emergencyMode s;
     encryptionMode := encryptionMode s;
     caesarShift := caesarShift s;
     xorKey := xorKey s;
     glyphCanvas := glyphCanvas s;
     showGlyph := showGlyph s;
     transmissionDB := transmissionDB s |}.

Definition setTransmissionHistory (v : list HistoryEntry) (s : AppState) : AppState :=
  {| message := message s;
     morseOutput := morseOutput s;
     isTransmitting := isTransmitting s;
     currentSignalIndex := currentSignalIndex s;
     transmissionHistory := v;
     isFlashing := isFlashing s;
     currentSignalType := currentSignalType s;
     emergencyMode := emergencyMode s;
     encryptionMode := encryptionMode s;
     caesarShift := caesarShift s;
     xorKey := xorKey s;
     glyphCanvas := glyphCanvas s;
     showGlyph := showGlyph s;
     transmissionDB := transmissionDB s |}.

Definition setIsFlashing (v : bool) (s : AppState) : AppState :=
  {| message := message s;
     morseOutput := morseOutput s;
     isTransmitting := isTransmitting s;
     currentSignalIndex := currentSignalIndex s;
     transmissionHistory := transmissionHistory s;
     isFlashing := v;
     currentSignalType := currentSignalType s;
     emergencyMode := emergencyMode s;
     encryptionMode := encryptionMode s;
     caesarShift := caesarShift s;
     xorKey := xorKey s;
     glyphCanvas := glyphCanvas s;
     showGlyph := showGlyph s;
     transmissionDB := transmissionDB s |}.

Definition setCurrentSignalType (v : option SignalType) (s : AppState) : AppState :=
  {| message := message s;
     morseOutput := morseOutput s;
     isTransmitting := isTransmitting s;
     currentSignalIndex := currentSignalIndex s;
     transmissionHistory := transmissionHistory s;
     isFlashing := isFlashing s;
     currentSignalType := v;
     emergencyMode := emergencyMode s;
     encryptionMode := encryptionMode s;
     caesarShift := caesarShift s;
     xorKey := xorKey s;
     glyphCanvas := glyphCanvas s;
     showGlyph := showGlyph s;
     transmissionDB := transmissionDB s |}.

Definition setEmergencyMode (v : bool) (s : AppState) : AppState :=
  {| message := message s;
     morseOutput := morseOutput s;
     isTransmitting := isTransmitting s;
     currentSignalIndex := currentSignalIndex s;
     transmissionHistory := transmissionHistory s;
     isFlashing := isFlashing s;
     currentSignalType := currentSignalType s;
     emergencyMode := v;
     encryptionMode := encryptionMode s;
     caesarShift := caesarShift s;
     xorKey := xorKey s;
     glyphCanvas := glyphCanvas s;
     showGlyph := showGlyph s;
     transmissionDB := transmissionDB s |}.

Definition setGlyphCanvas (v : jsstring) (s : AppState) : AppState :=
  {| message := message s;
     morseOutput := morseOutput s;
     isTransmitting := isTransmitting s;
     currentSignalIndex := currentSignalIndex s;
     transmissionHistory := transmissionHistory s;
     isFlashing := isFlashing s;
     currentSignalType := currentSignalType s;
     emergencyMode := emergencyMode s;
     encryptionMode := encryptionMode s;
     caesarShift := caesarShift s;
     xorKey := xorKey s;
     glyphCanvas := v;
     showGlyph := showGlyph s;
     transmissionDB := transmissionDB s |}.

Definition setShowGlyph (v : bool) (s : AppState) : AppState :=
  {| message := message s;
     morseOutput := morseOutput s;
     isTransmitting := isTransmitting s;
     currentSignalIndex := currentSignalIndex s;
     transmissionHistory := transmissionHistory s;
     isFlashing := isFlashing s;
     currentSignalType := currentSignalType s;
     emergencyMode := emergencyMode s;
     encryptionMode := encryptionMode s;
     caesarShift := caesarShift s;
     xorKey := xorKey s;
     glyphCanvas := glyphCanvas s;
     showGlyph := v;
     transmissionDB := transmissionDB s |}.

Definition setTransmissionDB (v : TransmissionDB.t) (s : AppState) : AppState :=
  {| message := message s;
     morseOutput := morseOutput s;
     isTransmitting := isTransmitting s;
     currentSignalIndex := currentSignalIndex s;
     transmissionHistory := transmissionHistory s;
     isFlashing := isFlashing s;
     currentSignalType := currentSignalType s;
     emergencyMode := emergencyMode s;
     encryptionMode := encryptionMode s;
     caesarShift := caesarShift s;
     xorKey := xorKey s;
     glyphCanvas := glyphCanvas s;
     showGlyph := showGlyph s;
     transmissionDB := v |}.

Definition setEncryptionMode (v : EncryptionMode) (s : AppState) : AppState :=
  {| message := message s;
     morseOutput := morseOutput s;
     isTransmitting := isTransmitting s;
     currentSignalIndex := currentSignalIndex s;
     transmissionHistory := transmissionHistory s;
     isFlashing := isFlashing s;
     currentSignalType := currentSignalType s;
     emergencyMode := emergencyMode s;
     encryptionMode := v;
     caesarShift := caesarShift s;
     xorKey := xorKey s;
     glyphCanvas := glyphCanvas s;
     showGlyph := showGlyph s;
     transmissionDB := transmissionDB s |}.

Definition setCaesarShift (v : Z) (s : AppState) : AppState :=
  {| message := message s;
     morseOutput := morseOutput s;
     isTransmitting := isTransmitting s;
     currentSignalIndex := currentSignalIndex s;
     transmissionHistory := transmissionHistory s;
     isFlashing := isFlashing s;
     currentSignalType := currentSignalType s;
     emergencyMode := emergencyMode s;
     encryptionMode := encryptionMode s;
     caesarShift := v;
     xorKey := xorKey s;
     glyphCanvas := glyphCanvas s;
     showGlyph := showGlyph s;
     transmissionDB := transmissionDB s |}.

Definition setXorKey (v : jsstring) (s : AppState) : AppState :=
  {| message := message s;
     morseOutput := morseOutput s;
     isTransmitting := isTransmitting s;
     currentSignalIndex := currentSignalIndex s;
     transmissionHistory := transmissionHistory s;
     isFlashing := isFlashing s;
     currentSignalType := currentSignalType s;
     emergencyMode := emergencyMode s;
     encryptionMode := encryptionMode s;
     caesarShift := caesarShift s;
     xorKey := v;
     glyphCanvas := glyphCanvas s;
     showGlyph := showGlyph s;
     transmissionDB := transmissionDB s |}.

(** What a handler or a timer chain does besides setting state: calls into
    the audio layer, timers, and the state writes of a chain in the order they
    are issued. *)
Inductive Event :=
| InitAudio
| PlayClick
| PlayTone (frequency duration : Z)
| SetTimeout (ms : Z)
| SetIsFlashing (b : bool)
| SetCurrentSignalType (t : option SignalType)
| IncCurrentSignalIndex.

(** The state write of an event. *)
Definition applyEvent (s : AppState) (e : Event) : AppState :=
  match e with
  | SetIsFlashing b => setIsFlashing b s
  | SetCurrentSignalType t => setCurrentSignalType t s
  | IncCurrentSignalIndex => setCurrentSignalIndex (currentSignalIndex s + 1)%nat s
  | InitAudio | PlayClick | PlayTone _ _ | SetTimeout _ => s
  end.

(** [playSignal], from the pulse at [signalIdx] on: [signals] is what is left
    of [currentMorse.split('')].  Each [SetTimeout ms] delays the events that
    follow it by [ms] milliseconds. *)
Fixpoint playSignal (emergencyMode : bool) (signals : jsstring) : list Event :=
  match signals with
  | [] =>
      [SetIsFlashing false; SetCurrentSignalType None; SetTimeout 500;
       IncCurrentSignalIndex]
  | signal :: rest =>
      let isDit := bool_decide (signal = 46) in
      let duration := if isDit then 200 else 600 in
      [SetIsFlashing true;
       SetCurrentSignalType (Some (if isDit then dit else dah));
       PlayTone (if emergencyMode then 880 else 700) duration;
       SetTimeout duration;
       SetIsFlashing false;
       SetCurrentSignalType None;
       SetTimeout 200]
      ++ playSignal emergencyMode rest
  end.

(** The callback of [history.map] in [loadDatabase]:
    [encrypted: h.encrypted || undefined]. *)
Definition historyEntryOf (h : TransmissionDB.Recent) : HistoryEntry :=
  {| h_message := TransmissionDB.r_message h;
     h_timestamp := TransmissionDB.r_timestamp h;
     h_encrypted :=
       match TransmissionDB.r_encrypted h with
       | Some e => if truthy e then Some e else None
       | None => None
       end |}.

Section App.

(** [String.prototype.toUpperCase] *)
Variable toUpperCase : jsstring → jsstring.

Definition xorEncrypt (text key : jsstring) : jsstring :=
  let keyNum := numOr (parseInt10 key) 11 in
  join (js " ")
    ((λ c, let xored := js_xor c keyNum in
           toUpperCase (padStart0 2 (toString16 xored))) <$> text).

Definition encryptMessage (s : AppState) (text : jsstring) : Encrypted :=
  match encryptionMode s with
  | caesar =>
      let encrypted := caesarEncrypt text (caesarShift s) in
      {| display := js "[CAESAR+" ++ numToString (caesarShift s) ++ js "] " ++ encrypted;
         forMorse := encrypted |}
  | binary =>
      {| display := js "[BINARY] " ++ toBinary text; forMorse := text |}
  | xor =>
      {| display := js "[XOR^" ++ xorKey s ++ js "] " ++ xorEncrypt text (xorKey s);
         forMorse := text |}
  | none => {| display := text; forMorse := text |}
  end.

(** [MORSE_CODE[char] || ''], then [filter(Boolean)]. *)
Definition textToMorse (text : jsstring) : list jsstring :=
  filter (λ m, truthy m)
    ((λ c, default [] (MORSE_CODE !! [c])) <$> toUpperCase text).

Definition handleTransmit (s : AppState) : AppState * list Event :=
  if truthy (trim (message s)) then
    let encrypted := encryptMessage s (message s) in
    let morse := textToMorse (forMorse encrypted) in
    (setShowGlyph true
       (setGlyphCanvas (generateGlyph (message s))
          (setCurrentSignalIndex 0
             (setIsTransmitting true
                (setMorseOutput morse s)))),
     [InitAudio; PlayClick])
  else (s, []).

(** The transmit button: [onClick={handleTransmit}] with
    [disabled={isTransmitting || !message.trim()}]; a disabled button
    dispatches no click. *)
Definition transmitButton_disabled (s : AppState) : bool :=
  isTransmitting s || negb (truthy (trim (message s))).

Definition transmitButton_onClick (s : AppState) : AppState * list Event :=
  if transmitButton_disabled s then (s, []) else handleTransmit s.

(** [handlePreset]: the part that runs in the click, and the callback of its
    [setTimeout(..., 100)]. *)
Definition handlePreset (preset : jsstring) (s : AppState) : AppState * list Event :=
  (setEmergencyMode
     (bool_decide (preset = js "HELP") || bool_decide (preset = js "DANGER")
      || bool_decide (preset = js "RUN"))
     (setMessage preset s),
   [InitAudio; PlayClick; SetTimeout 100]).

Definition handlePreset_timeout (preset : jsstring) (s : AppState) : AppState :=
  let morse := textToMorse preset in
  setShowGlyph true
    (setGlyphCanvas (generateGlyph preset)
       (setCurrentSignalIndex 0
          (setIsTransmitting true
             (setMorseOutput morse s)))).

(** [handleEmergencySOS], in the same two parts. *)
Definition handleEmergencySOS (s : AppState) : AppState * list Event :=
  (setMessage (js "SOS") (setEmergencyMode true s),
   [InitAudio; PlayClick; SetTimeout 100]).

Definition handleEmergencySOS_timeout (s : AppState) : AppState :=
  let morse := textToMorse (js "SOS") in
  setCurrentSignalIndex 0 (setIsTransmitting true (setMorseOutput morse s)).

(** The preset buttons, one per element of [PRESETS] with
    [onClick={() => handlePreset(preset)}], and the SOS button with
    [onClick={handleEmergencySOS}].  Neither has a [disabled] attribute: a
    click reaches the handler in every state. *)
Definition PRESETS : list jsstring :=
  [js "HELP"; js "DANGER"; js "ALIVE"; js "RUN"; js "SAFE"; js "COME"].

Definition presetButton_onClick (preset : jsstring) (s : AppState)
    : AppState * list Event :=
  handlePreset preset s.

Definition sosButton_onClick (s : AppState) : AppState * list Event :=
  handleEmergencySOS s.

(** The second branch of the transmission effect: the log entry, the row
    in the database, and the reset.  [now] is the clock reading
    [new Date().toLocaleTimeString('en-US', { hour12: false })]. *)
Definition completeTransmission (now : jsstring) (s : AppState) : AppState :=
  let timestamp := now in
  let encrypted := encryptMessage s (message s) in
  setMessage []
    (setCurrentSignalType None
       (setIsFlashing false
          (setCurrentSignalIndex 0
             (setIsTransmitting false
                (setTransmissionDB
                   (TransmissionDB.addTransmission (message s) (Some (display encrypted))
                      timestamp (modeName (encryptionMode s)) (transmissionDB s))
                   (setTransmissionHistory
                      (transmissionHistory s ++
                       [{| h_message := message s; h_timestamp := timestamp;
                           h_encrypted := Some (display encrypted) |}])
                      s)))))).

(** One run of the transmission effect.  In the first branch the result is
    the timer chain of the current character, with the state once that chain
    has run out.  The effect has no cleanup and [playTone] is one of its
    dependencies; [playTone] is re-created whenever [currentSignalType]
    changes, which every pulse does.  So the effect runs again during a
    chain and starts further chains for the character: several chains are
    in flight at a time.  The relation [step] below covers the callbacks of
    all of them, in any order. *)
Definition transmissionEffect (now : jsstring) (s : AppState) : AppState * list Event :=
  if isTransmitting s && (currentSignalIndex s <? length (morseOutput s))%nat then
    match morseOutput s !! currentSignalIndex s with
    | Some currentMorse =>
        let chain := playSignal (emergencyMode s) currentMorse in
        (foldl applyEvent s chain, chain)
    | None => (s, [])
    end
  else if (length (morseOutput s) <=? currentSignalIndex s)%nat && isTransmitting s then
    (completeTransmission now s, [])
  else (s, []).

(** [loadDatabase], the effect that runs once at mount. *)
Definition loadDatabase (s : AppState) : AppState :=
  let tdb := TransmissionDB.init (transmissionDB s) in
  let history := TransmissionDB.getRecentTransmissions 20 tdb in
  let s1 := setTransmissionDB tdb s in
  if (0 <? length history)%nat then
    setTransmissionHistory (reverse (historyEntryOf <$> history)) s1
  else s1.

(** What can happen to the state while no control other than the transmit
    button is used: a timer callback of a chain in flight writes its state,
    the effect takes its completion branch, or the transmit button is
    clicked.  The effect has no cleanup, so a chain is never cancelled and
    several may be in flight; the relation lets their callbacks come in any
    order and number. *)
Inductive step (s : AppState) : AppState → Prop :=
| step_timer (e : Event) : step s (applyEvent s e)
| step_complete (now : jsstring) :
    isTransmitting s = true →
    (length (morseOutput s) ≤ currentSignalIndex s)%nat →
    step s (completeTransmission now s)
| step_click : step s (transmitButton_onClick s).1.

(** The log entry that the completion of a transmission of [s] appends. *)
Definition entryOf (now : jsstring) (s : AppState) : HistoryEntry :=
  {| h_message := message s; h_timestamp := now;
     h_encrypted := Some (display (encryptMessage s (message s))) |}.

End App.

(** The state right after mount, before [loadDatabase] has run. *)
Definition initialState (saved : option TransmissionDB.Database) : AppState :=
  {| message := []; morseOutput := []; isTransmitting := false;
     currentSignalIndex := 0; transmissionHistory := [];
     isFlashing := false; currentSignalType := None;
     emergencyMode := false; encryptionMode := none; caesarShift := 3;
     xorKey := js "11"; glyphCanvas := []; showGlyph := false;
     transmissionDB := TransmissionDB.fresh saved |}.

(** ** Reading the XOR display back *)

(** Modelled from the spec: the source has no decoder for the output of
    [xorEncrypt]; the spec speaks of "reconstructing from hex pairs back to
    code points" and of "a second XOR pass with the same key".  [hexPairs]
    cuts the text at the spaces, [parseHexPair] reads one item as a
    hexadecimal numeral (upper-case digits, a minus sign for a negative
    number), [hexCodes] reads all of them.  The second pass is taken both
    ways: [xorDecode] applies the XOR to the numbers read and turns the
    results into characters; [hexToText] turns the numbers read into
    characters, for [xorEncrypt] itself to be applied to them again. *)
Fixpoint splitOn (sep : Z) (s : jsstring) : list jsstring :=
  match s with
  | [] => [[]]
  | c :: s' =>
      if c =? sep then [] :: splitOn sep s'
      else match splitOn sep s' with
           | p :: ps => (c :: p) :: ps
           | [] => [[c]]
           end
  end.

(** Modelled from the spec: the "space-separated hex pairs" of a display;
    the empty display has none. *)
Definition hexPairs (s : jsstring) : list jsstring :=
  match s with [] => [] | _ => splitOn 32 s end.

Definition hexDigit (c : Z) (u : Hexadecimal.uint) : option Hexadecimal.uint :=
  match c with
  | 48 => Some (Hexadecimal.D0 u) | 49 => Some (Hexadecimal.D1 u)
  | 50 => Some (Hexadecimal.D2 u) | 51 => Some (Hexadecimal.D3 u)
  | 52 => Some (Hexadecimal.D4 u) | 53 => Some (Hexadecimal.D5 u)
  | 54 => Some (Hexadecimal.D6 u) | 55 => Some (Hexadecimal.D7 u)
  | 56 => Some (Hexadecimal.D8 u) | 57 => Some (Hexadecimal.D9 u)
  | 65 => Some (Hexadecimal.Da u) | 66 => Some (Hexadecimal.Db u)
  | 67 => Some (Hexadecimal.Dc u) | 68 => Some (Hexadecimal.Dd u)
  | 69 => Some (Hexadecimal.De u) | 70 => Some (Hexadecimal.Df u)
  | _ => None
  end.

Fixpoint readHex (s : jsstring) : option Hexadecimal.uint :=
  match s with
  | [] => Some Hexadecimal.Nil
  | c :: s' => u ← readHex s'; hexDigit c u
  end.

(** Modelled from the spec: the number that one item stands for, [None] if
    it is not a hexadecimal numeral. *)
Definition parseHexPair (item : jsstring) : option Z :=
  match item with
  | [] => None
  | 45 :: digits =>
      match digits with
      | [] => None
      | _ => (λ u, Z.of_hex_int (Hexadecimal.Neg u)) <$> readHex digits
      end
  | _ => (λ u, Z.of_hex_int (Hexadecimal.Pos u)) <$> readHex item
  end.

(** Modelled from the spec: the numbers of a display, "hex pairs back to
    code points". *)
Definition hexCodes (encoded : jsstring) : option (list Z) :=
  mapM parseHexPair (hexPairs encoded).

(** Modelled from the spec: the characters reconstructed from a display. *)
Definition hexToText (encoded : jsstring) : option jsstring :=
  codes ← hexCodes encoded;
  Some (mjoin (fromCharCode <$> codes)).

(** Modelled from the spec: "a second XOR pass with the same key" over the
    numbers of a display, and the characters of the results. *)
Definition xorDecode (encoded key : jsstring) : option jsstring :=
  let keyNum := numOr (parseInt10 key) 11 in
  codes ← hexCodes encoded;
  Some (mjoin ((λ code, fromCharCode (js_xor code keyNum)) <$> codes)).

(** ** Definitions used by the statements *)

(** [caesarChar] on code units. *)
Definition caesarUnit (shift c : Z) : Z :=
  if (65 <=? c) && (c <=? 90)
  then toUint16 (Z.rem (roundDouble (c - 65 + shift)) 26 + 65)
  else c.

(** One item of the XOR display, for the number [x]. *)
Definition hexItem (x : Z) : jsstring := asciiUpper (padStart0 2 (toString16 x)).


(** The tones of a trace, as (frequency, duration), and its timers. *)
Definition tones (evs : list Event) : list (Z * Z) :=
  omap (λ e, match e with PlayTone f d => Some (f, d) | _ => None end) evs.





(** The pulse kinds that a trace shows, in order. *)
Definition pulses (evs : list Event) : list SignalType :=
  omap (λ e, match e with SetCurrentSignalType (Some p) => Some p | _ => None end) evs.

(** ** Sample states *)

(** The component after mount, with an empty database. *)
Definition idleState : AppState := loadDatabase (initialState None).

(** The idle component with [msg] typed into the message field. *)
Definition typed (msg : jsstring) : AppState := setMessage msg idleState.

Definition entryA : TransmissionDB.Recent :=
  {| TransmissionDB.r_message := js "A"; TransmissionDB.r_encrypted := Some (js "A");
     TransmissionDB.r_timestamp := js "12:00:01" |}.
Definition entryB : TransmissionDB.Recent :=
  {| TransmissionDB.r_message := js "B"; TransmissionDB.r_encrypted := Some (js "B");
     TransmissionDB.r_timestamp := js "12:00:02" |}.
Definition entryC : TransmissionDB.Recent :=
  {| TransmissionDB.r_message := js "C"; TransmissionDB.r_encrypted := Some (js "C");
     TransmissionDB.r_timestamp := js "12:00:03" |}.

(** An initialised store with three appends. *)
Definition storeABC : TransmissionDB.t :=
  TransmissionDB.addAll [entryA; entryB; entryC] (js "none")
    (TransmissionDB.init (TransmissionDB.fresh None)).

(** A transmission of [AA] just started. *)
Definition transmittingAA : AppState := (handleTransmit asciiUpper (typed (js "AA"))).1.

(** The SOS button clicked during the transmission of [AA], once the
    timeout of the click has fired. *)
Definition sosDuringAA : AppState :=
  handleEmergencySOS_timeout asciiUpper (sosButton_onClick transmittingAA).1.

(** A state after the timers at the end of three chains have moved the
    index three times. *)
Definition threeCharactersOn (s : AppState) : AppState :=
  foldl applyEvent s
    [IncCurrentSignalIndex; IncCurrentSignalIndex; IncCurrentSignalIndex].

(** The database that [storeABC] has saved. *)
Definition savedABC : TransmissionDB.Database :=
  default {| TransmissionDB.transmissions := []; TransmissionDB.sqlite_sequence := 0 |}
          (TransmissionDB.localStorage storeABC).

(** ** The decoder panel *)

(** [s.split(/\s+/)]: the text is cut at every maximal run of white space;
    [inRun] tells that the code unit before was white space. *)
Fixpoint splitWhiteSpace (inRun : bool) (s : jsstring) : list jsstring :=
  match s with
  | [] => [[]]
  | c :: s' =>
      if isWhiteSpace c then
        if inRun then splitWhiteSpace true s' else [] :: splitWhiteSpace true s'
      else
        match splitWhiteSpace false s' with
        | p :: ps => (c :: p) :: ps
        | [] => [[c]]
        end
  end.

(** The property names that every object inherits from [Object.prototype].
    A lookup [REVERSE_MORSE[p]] with one of them as [p] finds a built-in
    function, not [undefined]. *)
Definition OBJECT_PROTOTYPE_KEYS : list jsstring :=
  [ js "constructor"; js "hasOwnProperty"; js "isPrototypeOf";
    js "propertyIsEnumerable"; js "toLocaleString"; js "toString"; js "valueOf";
    js "__proto__"; js "__defineGetter__"; js "__defineSetter__";
    js "__lookupGetter__"; js "__lookupSetter__" ].

(** [REVERSE_MORSE[p] || '?'].  The result is [None] where the lookup finds
    an inherited built-in, whose text in the output depends on the engine. *)
Definition decodePart (p : jsstring) : option jsstring :=
  match REVERSE_MORSE !! p with
  | Some ch => Some (if truthy ch then ch else js "?")
  | None =>
      if bool_decide (p ∈ OBJECT_PROTOTYPE_KEYS) then None else Some (js "?")
  end.

(** [handleDecode]: the new value of [decodedText], from [decodeInput]. *)
Definition handleDecode (decodeInput : jsstring) : option jsstring :=
  let parts := splitWhiteSpace false (trim decodeInput) in
  decoded ← mapM decodePart parts;
  Some (join [] decoded).

(** The characters that [MORSE_CODE] has an entry for. *)
Definition supported (c : Z) : Prop := is_Some (MORSE_CODE !! [c]).

(** ** Reading the binary display *)

(** The number that a string of binary digits stands for. *)
Definition binValue (digits : jsstring) : Z :=
  foldl (λ acc d, 2 * acc + (d - 48)) 0 digits.

(** ** The sanity meter, the Konami code and the channel dial *)

(** The state hooks of the panel that the handlers below read or write.
    [sanityHalves] is [sanity] counted in half points: the component only
    ever sets it to 100 or lowers it by 0.5, so it is a whole number of
    halves.  [glitchIntensity] (a random number) and the audio nodes are
    left out. *)
Record PanelState := {
  sanityHalves : Z;
  isPossessed : bool;
  possessionTimer : Z;
  konamiSequence : list jsstring;
  channel : Z;
  isChannelChanging : bool;
  staticBurst : bool;
  decodeMode : bool
}.

Definition setSanityHalves (v : Z) (p : PanelState) : PanelState :=
  {| sanityHalves := v; isPossessed := isPossessed p;
     possessionTimer := possessionTimer p; konamiSequence := konamiSequence p;
     channel := channel p; isChannelChanging := isChannelChanging p;
     staticBurst := staticBurst p; decodeMode := decodeMode p |}.

Definition setIsPossessed (v : bool) (p : PanelState) : PanelState :=
  {| sanityHalves := sanityHalves p; isPossessed := v;
     possessionTimer := possessionTimer p; konamiSequence := konamiSequence p;
     channel := channel p; isChannelChanging := isChannelChanging p;
     staticBurst := staticBurst p; decodeMode := decodeMode p |}.

Definition setPossessionTimer (v : Z) (p : PanelState) : PanelState :=
  {| sanityHalves := sanityHalves p; isPossessed := isPossessed p;
     possessionTimer := v; konamiSequence := konamiSequence p;
     channel := channel p; isChannelChanging := isChannelChanging p;
     staticBurst := staticBurst p; decodeMode := decodeMode p |}.

Definition setKonamiSequence (v : list jsstring) (p : PanelState) : PanelState :=
  {| sanityHalves := sanityHalves p; isPossessed := isPossessed p;
     possessionTimer := possessionTimer p; konamiSequence := v;
     channel := channel p; isChannelChanging := isChannelChanging p;
     staticBurst := staticBurst p; decodeMode := decodeMode p |}.

Definition setChannel (v : Z) (p : PanelState) : PanelState :=
  {| sanityHalves := sanityHalves p; isPossessed := isPossessed p;
     possessionTimer := possessionTimer p; konamiSequence := konamiSequence p;
     channel := v; isChannelChanging := isChannelChanging p;
     staticBurst := staticBurst p; decodeMode := decodeMode p |}.

Definition setIsChannelChanging (v : bool) (p : PanelState) : PanelState :=
  {| sanityHalves := sanityHalves p; isPossessed := isPossessed p;
     possessionTimer := possessionTimer p; konamiSequence := konamiSequence p;
     channel := channel p; isChannelChanging := v;
     staticBurst := staticBurst p; decodeMode := decodeMode p |}.

Definition setStaticBurst (v : bool) (p : PanelState) : PanelState :=
  {| sanityHalves := sanityHalves p; isPossessed := isPossessed p;
     possessionTimer := possessionTimer p; konamiSequence := konamiSequence p;
     channel := channel p; isChannelChanging := isChannelChanging p;
     staticBurst := v; decodeMode := decodeMode p |}.

Definition setDecodeMode (v : bool) (p : PanelState) : PanelState :=
  {| sanityHalves := sanityHalves p; isPossessed := isPossessed p;
     possessionTimer := possessionTimer p; konamiSequence := konamiSequence p;
     channel := channel p; isChannelChanging := isChannelChanging p;
     staticBurst := staticBurst p; decodeMode := v |}.

(** The panel right after mount. *)
Definition initialPanel : PanelState :=
  {| sanityHalves := 200; isPossessed := false; possessionTimer := 0;
     konamiSequence := []; channel := 1; isChannelChanging := false;
     staticBurst := false; decodeMode := false |}.

(** The callback of the interval of the sanity countdown,
    [setSanity(prev => Math.max(0, prev - 0.5))]; the interval exists while
    [!isPossessed && sanity > 0]. *)
Definition sanityTick (p : PanelState) : PanelState :=
  if negb (isPossessed p) && (0 <? sanityHalves p)
  then setSanityHalves (Z.max 0 (sanityHalves p - 1)) p
  else p.

(** The second [if] of the sanity effect, run after a render:
    [sanity <= 0 && !isPossessed] starts a possession of 30 seconds. *)
Definition sanityEffect (p : PanelState) : PanelState :=
  if (sanityHalves p <=? 0) && negb (isPossessed p)
  then setStaticBurst true (setPossessionTimer 30 (setIsPossessed true p))
  else p.

(** The callback of the interval of the possession timer; the interval
    exists while [isPossessed && possessionTimer > 0]. *)
Definition possessionTick (p : PanelState) : PanelState :=
  if isPossessed p && (0 <? possessionTimer p) then
    if possessionTimer p <=? 1
    then setPossessionTimer 0 (setSanityHalves 200 (setIsPossessed false p))
    else setPossessionTimer (possessionTimer p - 1) p
  else p.

(** One second: the interval that is running fires, and the sanity effect
    follows the render. *)
Definition second (p : PanelState) : PanelState :=
  if isPossessed p then possessionTick p else sanityEffect (sanityTick p).

(** [l.slice(-n)] *)
Definition sliceLast {A} (n : nat) (l : list A) : list A := drop (length l - n) l.

Definition KONAMI_CODE : list jsstring :=
  [js "ArrowUp"; js "ArrowUp"; js "a"; js "b"].

(** [handleKeyDown], with [key] for [e.key].  [JSON.stringify] of two arrays
    of strings gives the same text exactly when the arrays are equal. *)
Definition handleKeyDown (key : jsstring) (p : PanelState) : PanelState * list Event :=
  let newSequence := sliceLast 10 (konamiSequence p ++ [key]) in
  if bool_decide (sliceLast 4 newSequence = KONAMI_CODE) then
    (setKonamiSequence []
       (setPossessionTimer 0 (setSanityHalves 200 (setIsPossessed false p))),
     [PlayClick])
  else (setKonamiSequence newSequence p, []).

(** [handleChannelChange]: the part that runs in the click. *)
Definition handleChannelChange (newChannel : Z) (p : PanelState)
    : PanelState * list Event :=
  if (newChannel <? 1) || (4 <? newChannel) then (p, [])
  else (setStaticBurst true (setIsChannelChanging true p),
        [PlayClick; SetTimeout 500]).

(** The callback of the [setTimeout(..., 500)] of [handleChannelChange];
    [emergencyMode] is a hook of [AppState]. *)
Definition handleChannelChange_timeout (newChannel : Z)
    (sp : AppState * PanelState) : AppState * PanelState :=
  let '(s, p) := sp in
  let p0 := setStaticBurst false (setIsChannelChanging false (setChannel newChannel p)) in
  match newChannel with
  | 1 =>
      (setEmergencyMode false s,
       setSanityHalves 200 (setDecodeMode false (setIsPossessed false p0)))
  | 2 =>
      (setEmergencyMode false s,
       setDecodeMode false (setPossessionTimer 999 (setIsPossessed true p0)))
  | 3 =>
      (setEmergencyMode true s,
       setSanityHalves 200 (setDecodeMode false (setIsPossessed false p0)))
  | 4 =>
      (setEmergencyMode false s,
       setSanityHalves 200 (setDecodeMode true (setIsPossessed false p0)))
  | _ => (s, p0)
  end.

(** [getChannelName] *)
Definition getChannelName (p : PanelState) : jsstring :=
  match channel p with
  | 1 => js "NORMAL"
  | 2 => js "UPSIDE DOWN"
  | 3 => js "EMERGENCY"
  | 4 => js "DECODER"
  | _ => js "UNKNOWN"
  end.

(** What can happen to the panel: a second passes, a key goes down, a dial
    button is clicked (the up button asks for [channel - 1], the down button
    for [channel + 1]), or the timeout of an accepted click fires, with the
    channel that the click asked for. *)
Inductive panel_step (p : PanelState) : PanelState → Prop :=
| panel_second : panel_step p (second p)
| panel_key (key : jsstring) : panel_step p (handleKeyDown key p).1
| panel_dial (up : bool) :
    panel_step p (handleChannelChange (if up then channel p - 1 else channel p + 1) p).1
| panel_channel (s : AppState) (newChannel : Z) :
    (handleChannelChange newChannel p).2 ≠ [] →
    panel_step p (handleChannelChange_timeout newChannel (s, p)).2.

(** ** The log panel *)

(** The lines of the transmission log as rendered:
    [transmissionHistory.slice(-5).reverse()], each line with its time and
    [entry.encrypted || entry.message]. *)
Definition logLine (entry : HistoryEntry) : jsstring * jsstring :=
  (h_timestamp entry,
   match h_encrypted entry with
   | Some e => if truthy e then e else h_message entry
   | None => h_message entry
   end).

Definition logPanel (s : AppState) : list (jsstring * jsstring) :=
  logLine <$> reverse (sliceLast 5 (transmissionHistory s)).

(** ** Sessions of the history store *)

(** A call on the [transmissionDB] singleton. *)
Inductive DbCall :=
| CallInit
| CallAdd (message : jsstring) (encrypted : option jsstring)
          (timestamp encryptionMode : jsstring)
| CallClear
| CallSave.

Definition dbCall (st : TransmissionDB.t) (c : DbCall) : TransmissionDB.t :=
  match c with
  | CallInit => TransmissionDB.init st
  | CallAdd m e ts mode => TransmissionDB.addTransmission m e ts mode st
  | CallClear => TransmissionDB.clearAll st
  | CallSave => TransmissionDB.save st
  end.

(** A database as this code leaves it: ids grow with the insertion order, are
    positive, and none is beyond [sqlite_sequence]. *)
Definition db_ok (d : TransmissionDB.Database) : Prop :=
  TransmissionDB.ids_increasing (TransmissionDB.transmissions d)
  ∧ Forall (λ r, 0 < TransmissionDB.id r <= TransmissionDB.sqlite_sequence d)
           (TransmissionDB.transmissions d).

(** The module is consistent: its database and the saved one are as this code
    leaves them, it has a database exactly when it is initialised, and the
    saved database is then the current one. *)
Definition store_ok (st : TransmissionDB.t) : Prop :=
  (∀ d, TransmissionDB.db st = Some d → db_ok d)
  ∧ (∀ d, TransmissionDB.localStorage st = Some d → db_ok d)
  ∧ (TransmissionDB.initialized st = true ↔ is_Some (TransmissionDB.db st))
  ∧ (is_Some (TransmissionDB.db st) →
     TransmissionDB.localStorage st = TransmissionDB.db st).

(** The ranges that the panel keeps: the sanity meter between 0 and 100
    points, a possession with time left on its timer, a channel between 1
    and 4, at most ten keys remembered. *)
Definition panel_ok (p : PanelState) : Prop :=
  0 <= sanityHalves p <= 200
  ∧ 0 <= possessionTimer p
  ∧ (isPossessed p = true → 0 < possessionTimer p)
  ∧ 1 <= channel p <= 4
  ∧ (length (konamiSequence p) <= 10)%nat.

(** The keys of a list go down one after the other. *)
Definition pressKeys (keys : list jsstring) (p : PanelState) : PanelState :=
  foldl (λ p key, (handleKeyDown key p).1) p keys.

#[global] Instance supported_dec (c : Z) : Decision (supported c).
Proof. unfold supported. apply _. Defined.

(** An ASCII lower-case letter. *)
Definition isLower (c : Z) : Prop := 97 <= c <= 122.

(** ** Definitions used by the statements on the transforms and the glyph *)

(** The cell of the glyph at line [y] and column [x]: the loop of
    [generateGlyph] visits the columns 0 to 3 and paints the column and its
    mirror image. *)
Definition glyphAt (text : jsstring) (y x : nat) : Z :=
  if glyphCell text (glyphHash text) y (x `min` (7 - x)) then BLOCK_FULL else BLOCK_LIGHT.

(** The low eight bits of a number as binary digits, the highest first. *)
Definition bits8 (c : Z) : jsstring :=
  (λ i : nat, if Z.testbit c (Z.of_nat (7 - i)) then 49 else 48) <$> seq 0 8.

(** An upper-case letter A to Z. *)
Definition isUpper (c : Z) : Prop := 65 <= c <= 90.

(** A code unit of Latin-1. *)
Definition isLatin1 (c : Z) : Prop := 0 <= c < 256.

(** The inner loop of [generateGlyph] on one line, for a given test [cell]. *)
Definition paintRow (cell : nat → nat → bool) (y : nat) (row : list Z)
    (xs : list nat) : list Z :=
  foldl (λ row x,
    if cell y x then <[(8 - 1 - x)%nat := BLOCK_FULL]> (<[x := BLOCK_FULL]> row) else row)
    row xs.

(** * Properties *)

(** ** Strings and numbers *)

Lemma join_nil_singletons (f : Z → Z) (text : jsstring) :
  join [] ((λ c, [f c]) <$> text) = f <$> text.
Proof.
  induction text as [|c text IH]; [done|].
  destruct text as [|c' text]; [done|].
  change (join [] ((λ c, [f c]) <$> c :: c' :: text))
    with ([f c] ++ [] ++ join [] ((λ c, [f c]) <$> c' :: text)).
  by rewrite IH.
Qed.

Lemma toInt32_range (x : Z) : - 2 ^ 31 <= toInt32 x < 2 ^ 31.
Proof. unfold toInt32. Z.div_mod_to_equations. lia. Qed.

Lemma toInt32_small (x : Z) : - 2 ^ 31 <= x < 2 ^ 31 → toInt32 x = x.
Proof. intros H. unfold toInt32. Z.div_mod_to_equations. lia. Qed.

Lemma toUint16_toInt32 (x : Z) : toUint16 (toInt32 x) = x mod 65536.
Proof. unfold toUint16, toInt32. Z.div_mod_to_equations. lia. Qed.

Lemma toInt32_mod16 (x : Z) : toInt32 x mod 2 ^ 16 = x mod 2 ^ 16.
Proof. unfold toInt32. Z.div_mod_to_equations. lia. Qed.

(** XOR commutes with keeping the low [n] bits. *)
Lemma lxor_mod_pow2 (a b n : Z) :
  0 <= n → Z.lxor a b mod 2 ^ n = Z.lxor (a mod 2 ^ n) (b mod 2 ^ n).
Proof.
  intros Hn. apply Z.bits_inj'. intros i Hi.
  rewrite Z.lxor_spec.
  destruct (Z.lt_ge_cases i n) as [Hlt|Hge].
  - rewrite !Z.mod_pow2_bits_low by lia. by rewrite Z.lxor_spec.
  - by rewrite !Z.mod_pow2_bits_high by lia.
Qed.

(** The character of an XOR depends on the low 16 bits of its operands. *)
Lemma toUint16_js_xor (a k : Z) :
  toUint16 (js_xor a k) = Z.lxor (a mod 2 ^ 16) (k mod 2 ^ 16).
Proof.
  unfold js_xor. rewrite toUint16_toInt32. change 65536 with (2 ^ 16).
  rewrite lxor_mod_pow2 by lia. by rewrite !toInt32_mod16.
Qed.

(** The second XOR pass undoes the first, for a code unit: on the number
    that the first pass gave, and on the character of that number. *)
Lemma js_xor_involutive (c k : Z) :
  wf_char c → toUint16 (js_xor (js_xor c k) k) = c.
Proof.
  unfold wf_char. intros Hc.
  rewrite toUint16_js_xor.
  change (js_xor c k mod 2 ^ 16) with (toUint16 (js_xor c k)).
  rewrite toUint16_js_xor.
  rewrite Z.lxor_assoc, Z.lxor_nilpotent, Z.lxor_0_r.
  apply Z.mod_small. lia.
Qed.

Lemma js_xor_char_involutive (c k : Z) :
  wf_char c → toUint16 (js_xor (toUint16 (js_xor c k)) k) = c.
Proof.
  unfold wf_char. intros Hc.
  rewrite !toUint16_js_xor.
  rewrite lxor_mod_pow2 by lia. rewrite !Z.mod_mod by lia.
  rewrite Z.lxor_assoc, Z.lxor_nilpotent, Z.lxor_0_r.
  apply Z.mod_small. lia.
Qed.

(** ** The Morse table *)

Lemma fromEntries_snoc (l : list (jsstring * jsstring)) (kv : jsstring * jsstring) :
  fromEntries (l ++ [kv]) = <[kv.1 := kv.2]> (fromEntries l).
Proof. unfold fromEntries. by rewrite foldl_app. Qed.

Lemma fromEntries_list_to_map (l : list (jsstring * jsstring)) :
  fromEntries l = list_to_map (reverse l).
Proof.
  induction l as [|kv l IH] using rev_ind; [done|].
  rewrite fromEntries_snoc, reverse_snoc, IH. done.
Qed.

(** Without a repeated key, an object holds exactly its entries. *)
Lemma fromEntries_lookup (l : list (jsstring * jsstring)) (k v : jsstring) :
  NoDup l.*1 → fromEntries l !! k = Some v ↔ (k, v) ∈ l.
Proof.
  intros Hnd. rewrite fromEntries_list_to_map.
  rewrite <- elem_of_list_to_map.
  - by rewrite elem_of_reverse.
  - by rewrite fmap_reverse, reverse_Permutation.
Qed.

(** [MORSE_CODE] holds exactly the entries of its literal. *)
Lemma MORSE_CODE_lookup (k v : jsstring) :
  MORSE_CODE !! k = Some v ↔ (k, v) ∈ MORSE_ENTRIES.
Proof.
  apply fromEntries_lookup. apply (bool_decide_unpack _). vm_compute. exact I.
Qed.

(** No two characters share a pulse string, so the order in which
    [Object.entries] lists the table does not matter to [REVERSE_MORSE]. *)
Lemma MORSE_CODE_pulses_NoDup : NoDup (map_to_list MORSE_CODE).*2.
Proof. apply (bool_decide_unpack _). vm_compute. exact I. Qed.

(** C6. For every character [c] whose upper-case form has an entry in
    [MORSE_CODE], looking that entry up in [REVERSE_MORSE] gives the
    upper-case form back: decode (encode c) = uppercase c.  It holds whatever
    [toUpperCase] does outside ASCII. *)
Theorem decode_encode (toUpperCase : jsstring → jsstring) (c pulses : jsstring) :
  MORSE_CODE !! toUpperCase c = Some pulses →
  REVERSE_MORSE !! pulses = Some (toUpperCase c).
Proof.
  intros Henc. unfold REVERSE_MORSE.
  apply fromEntries_lookup.
  - rewrite <- list_fmap_compose.
    erewrite list_fmap_ext; [exact MORSE_CODE_pulses_NoDup|].
    by intros i [k v] _.
  - apply list_elem_of_fmap. exists (toUpperCase c, pulses). split; [done|].
    by apply elem_of_map_to_list.
Qed.

(** ** The shift cipher *)

Lemma caesarEncrypt_fmap (text : jsstring) (shift : Z) :
  caesarEncrypt text shift = caesarUnit shift <$> text.
Proof.
  unfold caesarEncrypt. rewrite <- join_nil_singletons. f_equal.
  apply list_fmap_ext. intros _ c _.
  unfold caesarChar, caesarUnit, fromCharCode. by destruct (_ && _).
Qed.

(** An integer below 2^53 in magnitude is a double. *)
Lemma roundDouble_small (z : Z) : - 2 ^ 53 < z < 2 ^ 53 → roundDouble z = z.
Proof.
  intros Hz. unfold roundDouble.
  replace (Z.abs z <? 2 ^ 53) with true by (symmetry; apply Z.ltb_lt; lia).
  done.
Qed.

(** A letter stays a letter under a shift that is not negative, as long as
    the sum is exact. *)
Lemma caesarUnit_letter (shift c : Z) :
  0 <= shift <= 2 ^ 53 - 26 → 65 <= c <= 90 →
  caesarUnit shift c = (c - 65 + shift) mod 26 + 65.
Proof.
  intros Hs Hc. unfold caesarUnit, toUint16.
  replace ((65 <=? c) && (c <=? 90)) with true
    by (symmetry; apply andb_true_iff; lia).
  rewrite roundDouble_small by lia.
  rewrite Z.rem_mod_nonneg by lia.
  apply Z.mod_small. pose proof (Z.mod_pos_bound (c - 65 + shift) 26). lia.
Qed.

Lemma caesarUnit_inverse (k c : Z) :
  0 <= k <= 25 → caesarUnit (26 - k) (caesarUnit k c) = c.
Proof.
  intros Hk.
  destruct (decide (65 <= c <= 90)) as [Hc|Hc].
  - rewrite (caesarUnit_letter k c) by lia.
    pose proof (Z.mod_pos_bound (c - 65 + k) 26).
    rewrite caesarUnit_letter by lia.
    Z.div_mod_to_equations. lia.
  - unfold caesarUnit.
    replace ((65 <=? c) && (c <=? 90)) with false
      by (symmetry; apply andb_false_iff; lia).
    replace ((65 <=? c) && (c <=? 90)) with false
      by (symmetry; apply andb_false_iff; lia).
    done.
Qed.

(** C7. Shifting by [k] and then by [26 - k] gives the text back, for every
    [k] in [0, 25]: letters [A]..[Z] rotate back, every other code unit
    passes through both times.  It holds for every text, so in particular
    for every all-upper-case one. *)
Theorem caesarEncrypt_inverse (text : jsstring) (k : Z) :
  0 <= k <= 25 →
  caesarEncrypt (caesarEncrypt text k) (26 - k) = text.
Proof.
  intros Hk. rewrite !caesarEncrypt_fmap, <- list_fmap_compose.
  rewrite <- (list_fmap_id text) at 2.
  apply list_fmap_ext. intros _ c _. by apply caesarUnit_inverse.
Qed.

(** ** The XOR display *)

Lemma hex_digits_ascii (u : Hexadecimal.uint) : is_ascii (hex_digits u).
Proof. induction u; simpl; [constructor | constructor; (done || lia) ..]. Qed.

Lemma toString16_ascii (x : Z) : is_ascii (toString16 x).
Proof.
  unfold toString16. destruct (Z.to_hex_int x).
  - apply hex_digits_ascii.
  - constructor; [lia | apply hex_digits_ascii].
Qed.

Lemma padStart0_ascii (n : nat) (s : jsstring) : is_ascii s → is_ascii (padStart0 n s).
Proof.
  intros Hs. unfold padStart0, is_ascii. apply Forall_app. split; [|done].
  apply Forall_replicate. lia.
Qed.

Lemma readHex_upper_digits (u : Hexadecimal.uint) :
  readHex (asciiUpper (hex_digits u)) = Some u.
Proof. induction u; simpl; [done | rewrite IHu; done ..]. Qed.

Lemma hexChar_upper_digits (u : Hexadecimal.uint) :
  Forall (λ c, 48 <= c <= 57 ∨ 65 <= c <= 70) (asciiUpper (hex_digits u)).
Proof.
  induction u; simpl;
    [constructor | constructor; [unfold asciiUpperChar; simpl; lia | done] ..].
Qed.

Lemma hex_digits_nil (u : Hexadecimal.uint) : hex_digits u = [] → u = Hexadecimal.Nil.
Proof. by destruct u. Qed.

(** An item that does not start with a sign reads as its digits. *)
Lemma parseHexPair_digits (item : jsstring) (u : Hexadecimal.uint) :
  item ≠ [] → Forall (λ c, 48 <= c <= 57 ∨ 65 <= c <= 70) item →
  readHex item = Some u →
  parseHexPair item = Some (Z.of_hex_int (Hexadecimal.Pos u)).
Proof.
  intros Hne Hall Hread. destruct item as [|c item]; [done|].
  apply Forall_cons in Hall as [Hc _].
  assert (c ≠ 45) as Hc' by lia.
  unfold parseHexPair. rewrite Hread.
  destruct c as [|p|p]; [done| |done].
  repeat (destruct p as [p|p|]; try done).
Qed.

Lemma to_hex_int_nonnil (x : Z) :
  match Z.to_hex_int x with
  | Hexadecimal.Pos u | Hexadecimal.Neg u => u ≠ Hexadecimal.Nil
  end.
Proof.
  destruct x; simpl; [done | apply HexadecimalPos.Unsigned.to_uint_nonnil ..].
Qed.

(** Reading an item gives the number it was printed from. *)
Lemma parseHexPair_hexItem (x : Z) : parseHexPair (hexItem x) = Some x.
Proof.
  unfold hexItem, toString16.
  rewrite <- (HexadecimalZ.of_to x) at 2.
  destruct (Z.to_hex_int x) as [u|u] eqn:Hx.
  - assert (u ≠ Hexadecimal.Nil) as Hu
      by (pose proof (to_hex_int_nonnil x) as Hn; by rewrite Hx in Hn).
    unfold padStart0.
    destruct (hex_digits u) as [|d1 [|d2 ds]] eqn:Hd.
    + by apply hex_digits_nil in Hd.
    + change (asciiUpper (replicate (2 - length [d1]) 48 ++ [d1]))
        with (48 :: [asciiUpperChar d1]).
      assert (asciiUpper (hex_digits u) = [asciiUpperChar d1]) as Hup
        by (by rewrite Hd).
      pose proof (readHex_upper_digits u) as Hr. rewrite Hup in Hr.
      pose proof (hexChar_upper_digits u) as Hc. rewrite Hup in Hc.
      rewrite (parseHexPair_digits (48 :: [asciiUpperChar d1]) (Hexadecimal.D0 u)).
      * done.
      * done.
      * constructor; [lia | done].
      * simpl in *. by rewrite Hr.
    + cbn [length Nat.sub]. replace (0 - length ds)%nat with 0%nat by lia.
      cbn [replicate app]. rewrite <- Hd.
      apply parseHexPair_digits.
      * rewrite Hd. done.
      * apply hexChar_upper_digits.
      * apply readHex_upper_digits.
  - assert (u ≠ Hexadecimal.Nil) as Hu
      by (pose proof (to_hex_int_nonnil x) as Hn; by rewrite Hx in Hn).
    unfold padStart0.
    destruct (hex_digits u) as [|d1 ds] eqn:Hd.
    + by apply hex_digits_nil in Hd.
    + cbn [length Nat.sub]. replace (0 - length ds)%nat with 0%nat by lia.
      cbn [replicate app]. rewrite <- Hd.
      change (asciiUpper (45 :: hex_digits u)) with (45 :: asciiUpper (hex_digits u)).
      unfold parseHexPair. rewrite readHex_upper_digits.
      rewrite Hd. done.
Qed.

Lemma readHex_no_space (s : jsstring) (u : Hexadecimal.uint) :
  readHex s = Some u → 32 ∉ s.
Proof.
  revert u. induction s as [|c s IH]; intros u Hread.
  - apply not_elem_of_nil.
  - simpl in Hread. destruct (readHex s) as [u'|] eqn:Hs; [|done].
    apply not_elem_of_cons. split; [|by eapply IH].
    intros <-. done.
Qed.

(** An item that reads as a number is not empty and holds no space. *)
Lemma parseHexPair_Some_shape (item : jsstring) (x : Z) :
  parseHexPair item = Some x → item ≠ [] ∧ 32 ∉ item.
Proof.
  intros Hp. split; [by intros ->|].
  unfold parseHexPair in Hp.
  destruct item as [|c item]; [done|].
  assert (∀ u, readHex (c :: item) = Some u → 32 ∉ c :: item) as Hall
    by (intros u; apply readHex_no_space).
  destruct (decide (c = 45)) as [->|Hc].
  - destruct item as [|d item]; [done|].
    destruct (readHex (d :: item)) as [u|] eqn:Hr; [|done].
    apply not_elem_of_cons. split; [done|]. by eapply readHex_no_space.
  - destruct (readHex (c :: item)) as [u|] eqn:Hr.
    + by eapply Hall.
    + exfalso. destruct c as [|p|p]; try done.
      repeat (destruct p as [p|p|]; try done).
Qed.

Lemma splitOn_app_sep (sep : Z) (p s : jsstring) :
  sep ∉ p → splitOn sep (p ++ sep :: s) = p :: splitOn sep s.
Proof.
  induction p as [|c p IH]; intros Hp; simpl.
  - by rewrite Z.eqb_refl.
  - apply not_elem_of_cons in Hp as [Hc Hp].
    replace (c =? sep) with false by (symmetry; apply Z.eqb_neq; done).
    by rewrite IH.
Qed.

Lemma splitOn_no_sep (sep : Z) (p : jsstring) : sep ∉ p → splitOn sep p = [p].
Proof.
  induction p as [|c p IH]; intros Hp; simpl; [done|].
  apply not_elem_of_cons in Hp as [Hc Hp].
  replace (c =? sep) with false by (symmetry; apply Z.eqb_neq; done).
  by rewrite IH.
Qed.

Lemma splitOn_join (items : list jsstring) :
  items ≠ [] → Forall (λ item, 32 ∉ item) items →
  splitOn 32 (join [32] items) = items.
Proof.
  induction items as [|p items IH]; intros Hne Hall; [done|].
  apply Forall_cons in Hall as [Hp Hall].
  destruct items as [|q items].
  - by apply splitOn_no_sep.
  - change (join [32] (p :: q :: items)) with (p ++ 32 :: join [32] (q :: items)).
    rewrite splitOn_app_sep by done. by rewrite IH.
Qed.

Lemma join_nonempty (sep : jsstring) (items : list jsstring) :
  items ≠ [] → Forall (λ item, item ≠ []) items → join sep items ≠ [].
Proof.
  intros Hne Hall. destruct items as [|p items]; [done|].
  apply Forall_cons in Hall as [Hp _].
  destruct items; simpl; [done|]. by destruct p.
Qed.

(** The display of items, cut at the spaces, is the list of the items. *)
Lemma hexPairs_join (items : list jsstring) :
  Forall (λ item, item ≠ [] ∧ 32 ∉ item) items →
  hexPairs (join [32] items) = items.
Proof.
  intros Hall. destruct items as [|p items]; [done|].
  unfold hexPairs.
  destruct (join [32] (p :: items)) eqn:Hj.
  - exfalso. revert Hj. apply join_nonempty; [done|].
    eapply Forall_impl; [exact Hall|]. by intros ? [? _].
  - rewrite <- Hj. apply splitOn_join; [done|].
    eapply Forall_impl; [exact Hall|]. by intros ? [_ ?].
Qed.

Lemma mapM_parseHexPair_hexItem (xs : list Z) :
  mapM parseHexPair (hexItem <$> xs) = Some xs.
Proof.
  induction xs as [|x xs IH]; [done|].
  change (mapM parseHexPair (hexItem <$> x :: xs))
    with (y ← parseHexPair (hexItem x);
          k ← mapM parseHexPair (hexItem <$> xs); mret (y :: k)).
  by rewrite parseHexPair_hexItem, IH.
Qed.

Lemma mjoin_singletons (g : Z → Z) (l : list Z) :
  mjoin ((λ c, [g c]) <$> l) = g <$> l.
Proof.
  induction l as [|c l IH]; [done|].
  change (mjoin ((λ c, [g c]) <$> c :: l))
    with (g c :: mjoin ((λ c, [g c]) <$> l)).
  by rewrite IH.
Qed.

Section XorProperties.

Variable toUpperCase : jsstring → jsstring.
Hypothesis toUpperCase_ascii :
  ∀ s : jsstring, is_ascii s → toUpperCase s = asciiUpper s.

(** The display is the list of the items of the XOR-ed code units. *)
Lemma xorEncrypt_items (text key : jsstring) :
  xorEncrypt toUpperCase text key =
  join [32] (hexItem <$> ((λ c, js_xor c (numOr (parseInt10 key) 11)) <$> text)).
Proof.
  unfold xorEncrypt. change (js " ") with [32]. f_equal.
  rewrite <- list_fmap_compose. apply list_fmap_ext. intros _ c _. simpl.
  unfold hexItem. apply toUpperCase_ascii, padStart0_ascii, toString16_ascii.
Qed.

(** The numbers read back from the display are the XOR-ed code units. *)
Lemma hexCodes_xorEncrypt (text key : jsstring) :
  hexCodes (xorEncrypt toUpperCase text key) =
  Some ((λ c, js_xor c (numOr (parseInt10 key) 11)) <$> text).
Proof.
  unfold hexCodes. rewrite xorEncrypt_items, hexPairs_join.
  - apply mapM_parseHexPair_hexItem.
  - apply Forall_fmap, Forall_true. intros x.
    eapply parseHexPair_Some_shape, parseHexPair_hexItem.
Qed.

(** The characters reconstructed from the display. *)
Lemma hexToText_xorEncrypt (text key : jsstring) :
  hexToText (xorEncrypt toUpperCase text key) =
  Some ((λ c, toUint16 (js_xor c (numOr (parseInt10 key) 11))) <$> text).
Proof.
  unfold hexToText. rewrite hexCodes_xorEncrypt. simpl. f_equal.
  unfold fromCharCode. rewrite <- list_fmap_compose.
  apply (mjoin_singletons (λ c, toUint16 (js_xor c (numOr (parseInt10 key) 11)))).
Qed.

(** C8. The XOR transform round-trips, for every text of code units and
    every key string.  Reading the display of [xorEncrypt] back item by item
    as hexadecimal numbers and applying the XOR with the same key a second
    time gives the code units of the original text; and so does turning the
    numbers read into characters, applying [xorEncrypt] with the same key to
    them, and reading its display back. *)
Theorem xorDecode_xorEncrypt (text key : jsstring) :
  wf_string text →
  xorDecode (xorEncrypt toUpperCase text key) key = Some text
  ∧ (hexToText (xorEncrypt toUpperCase text key)
       ≫= λ again, hexToText (xorEncrypt toUpperCase again key)) = Some text.
Proof.
  intros Hwf.
  set (keyNum := numOr (parseInt10 key) 11).
  split.
  - unfold xorDecode. rewrite hexCodes_xorEncrypt. fold keyNum. simpl. f_equal.
    unfold fromCharCode. rewrite <- list_fmap_compose.
    rewrite (mjoin_singletons (λ c, toUint16 (js_xor (js_xor c keyNum) keyNum))).
    rewrite <- (list_fmap_id text) at 2.
    apply Forall_fmap_ext_1.
    eapply Forall_impl; [exact Hwf|].
    intros c Hc. by apply js_xor_involutive.
  - rewrite hexToText_xorEncrypt. fold keyNum.
    change (Some ?t ≫= ?f) with (f t). cbv beta.
    rewrite hexToText_xorEncrypt. fold keyNum. f_equal.
    rewrite <- list_fmap_compose.
    rewrite <- (list_fmap_id text) at 2.
    apply Forall_fmap_ext_1.
    eapply Forall_impl; [exact Hwf|].
    intros c Hc. by apply js_xor_char_involutive.
Qed.

(** C10. A key that parses to the number 0 (the key [0] itself is one) is
    replaced by the default 11: the display is that of the key [11]. *)
Theorem xorEncrypt_key_zero (text key : jsstring) :
  parseInt10 key = Some 0 →
  xorEncrypt toUpperCase text key = xorEncrypt toUpperCase text (js "11").
Proof. intros Hkey. unfold xorEncrypt. by rewrite Hkey. Qed.

End XorProperties.

(** ** The transform modes *)

(** C3. What [encryptMessage] hands to the Morse encoder ([forMorse]) and to
    the log ([display]) in each mode: in the caesar mode the shifted text is
    encoded; in the binary and xor modes the plain text is encoded and only
    the display carries the transform; without a mode both are the plain
    text. *)
Theorem encryptMessage_modes (toUpperCase : jsstring → jsstring)
    (s : AppState) (text : jsstring) :
  let enc mode := encryptMessage toUpperCase (setEncryptionMode mode s) text in
  (forMorse (enc caesar) = caesarEncrypt text (caesarShift s)
   ∧ display (enc caesar) =
       js "[CAESAR+" ++ numToString (caesarShift s) ++ js "] "
       ++ caesarEncrypt text (caesarShift s))
  ∧ (forMorse (enc binary) = text
     ∧ display (enc binary) = js "[BINARY] " ++ toBinary text)
  ∧ (forMorse (enc xor) = text
     ∧ display (enc xor) =
         js "[XOR^" ++ xorKey s ++ js "] " ++ xorEncrypt toUpperCase text (xorKey s))
  ∧ (forMorse (enc none) = text ∧ display (enc none) = text).
Proof. repeat split. Qed.

(** In the binary and xor modes [handleTransmit] therefore sends the same
    pulses as without a mode. *)
Lemma handleTransmit_morse_plain (toUpperCase : jsstring → jsstring) (s : AppState) :
  encryptionMode s ≠ caesar →
  truthy (trim (message s)) = true →
  morseOutput (handleTransmit toUpperCase s).1 = textToMorse toUpperCase (message s).
Proof.
  intros Hmode Hmsg. unfold handleTransmit. rewrite Hmsg. simpl.
  unfold encryptMessage. by destruct (encryptionMode s).
Qed.

(** ** The timer chain of a character *)


(** Every signal gets one tone; a signal that is not a dot, among them the
    [/] that stands for a space, lasts 600 ms. *)
Lemma playSignal_tones (emergencyMode : bool) (signals : jsstring) :
  tones (playSignal emergencyMode signals) =
  (λ c, (if emergencyMode then 880 else 700,
         if bool_decide (c = 46) then 200 else 600)) <$> signals.
Proof.
  induction signals as [|c signals IH]; [done|].
  cbn [playSignal]. unfold tones in *. rewrite omap_app, IH. done.
Qed.





(** ** White space *)

Lemma dropWhile_all {A} (p : A → bool) (l : list A) :
  Forall (λ x, p x = true) l → dropWhile p l = [].
Proof. induction 1 as [|x l Hx _ IH]; simpl; [done|]. by rewrite Hx. Qed.

(** A string of white space only (the empty string is one) trims to the
    empty string, which is falsy. *)
Lemma trim_blank (s : jsstring) :
  Forall (λ c, isWhiteSpace c = true) s → trim s = [].
Proof.
  intros Hs. unfold trim, trimStart, trimEnd.
  by rewrite (dropWhile_all _ s Hs).
Qed.

(** ** The handlers and the effect *)

Lemma applyEvent_frame (s : AppState) (e : Event) :
  message (applyEvent s e) = message s
  ∧ morseOutput (applyEvent s e) = morseOutput s
  ∧ isTransmitting (applyEvent s e) = isTransmitting s
  ∧ transmissionHistory (applyEvent s e) = transmissionHistory s
  ∧ transmissionDB (applyEvent s e) = transmissionDB s
  ∧ encryptionMode (applyEvent s e) = encryptionMode s
  ∧ caesarShift (applyEvent s e) = caesarShift s
  ∧ xorKey (applyEvent s e) = xorKey s.
Proof. by destruct e. Qed.


Section TransmissionProperties.

Variable toUpperCase : jsstring → jsstring.
Hypothesis toUpperCase_ascii :
  ∀ s : jsstring, is_ascii s → toUpperCase s = asciiUpper s.

Lemma encryptMessage_config (s s' : AppState) (text : jsstring) :
  encryptionMode s' = encryptionMode s →
  caesarShift s' = caesarShift s →
  xorKey s' = xorKey s →
  encryptMessage toUpperCase s' text = encryptMessage toUpperCase s text.
Proof. unfold encryptMessage. by intros -> -> ->. Qed.


Lemma transmissionEffect_complete (now : jsstring) (s : AppState) :
  isTransmitting s = true →
  (length (morseOutput s) ≤ currentSignalIndex s)%nat →
  transmissionEffect toUpperCase now s = (completeTransmission toUpperCase now s, []).
Proof.
  intros Htx Hend. unfold transmissionEffect. rewrite Htx.
  replace (currentSignalIndex s <? length (morseOutput s))%nat with false
    by (symmetry; apply Nat.ltb_ge; done).
  replace (length (morseOutput s) <=? currentSignalIndex s)%nat with true
    by (symmetry; apply Nat.leb_le; done).
  done.
Qed.

Lemma transmissionEffect_idle (now : jsstring) (s : AppState) :
  isTransmitting s = false → transmissionEffect toUpperCase now s = (s, []).
Proof.
  intros Htx. unfold transmissionEffect. rewrite Htx.
  by rewrite andb_false_r.
Qed.


(** *** Rejected clicks *)

Lemma transmitButton_disabled_running (s : AppState) :
  isTransmitting s = true → transmitButton_onClick toUpperCase s = (s, []).
Proof. intros Htx. unfold transmitButton_onClick, transmitButton_disabled. by rewrite Htx. Qed.

Lemma transmitButton_disabled_blank (s : AppState) :
  trim (message s) = [] → transmitButton_onClick toUpperCase s = (s, []).
Proof.
  intros Hmsg. unfold transmitButton_onClick, transmitButton_disabled.
  rewrite Hmsg. by rewrite orb_true_r.
Qed.

(** C9. With a message that is empty or white space only, [handleTransmit]
    and a click on the transmit button change nothing and emit nothing;
    and from an idle state the effect does nothing, and nothing that
    follows (timer callbacks, the completion branch, further clicks) starts
    a transmission or appends to the log or to the database. *)
Theorem blank_message_rejected (s : AppState) :
  Forall (λ c, isWhiteSpace c = true) (message s) →
  handleTransmit toUpperCase s = (s, [])
  ∧ transmitButton_onClick toUpperCase s = (s, [])
  ∧ (isTransmitting s = false →
     (∀ now, transmissionEffect toUpperCase now s = (s, []))
     ∧ ∀ s', rtc (step toUpperCase) s s' →
       isTransmitting s' = false
       ∧ message s' = message s
       ∧ morseOutput s' = morseOutput s
       ∧ transmissionHistory s' = transmissionHistory s
       ∧ transmissionDB s' = transmissionDB s).
Proof.
  intros Hblank. apply trim_blank in Hblank.
  split; [|split].
  - unfold handleTransmit. by rewrite Hblank.
  - by apply transmitButton_disabled_blank.
  - intros Hidle. split; [intros now; by apply transmissionEffect_idle|].
    apply rtc_ind_r; [done|].
    intros s1 s2 _ Hstep (Htx & Hmsg & Hmorse & Hhist & Hdb).
    destruct Hstep as [e|now Htx' _|].
    + destruct (applyEvent_frame s1 e) as (-> & -> & -> & -> & -> & _). done.
    + congruence.
    + rewrite transmitButton_disabled_blank by congruence. done.
Qed.

(** What a run can do to a running transmission: until the completion
    the message, the pulse sequence, the log, the database and the settings
    of the transforms stay as they are; the completion appends one entry,
    for the message of the running transmission, and one row, and empties
    the message; after it nothing more is appended. *)
Lemma run_invariant (s s' : AppState) :
  isTransmitting s = true →
  rtc (step toUpperCase) s s' →
  (encryptionMode s' = encryptionMode s
   ∧ caesarShift s' = caesarShift s ∧ xorKey s' = xorKey s)
  ∧ ((isTransmitting s' = true
      ∧ message s' = message s
      ∧ morseOutput s' = morseOutput s
      ∧ transmissionHistory s' = transmissionHistory s
      ∧ transmissionDB s' = transmissionDB s)
     ∨ (isTransmitting s' = false ∧ message s' = []
        ∧ ∃ now,
            transmissionHistory s' =
              transmissionHistory s ++ [entryOf toUpperCase now s]
            ∧ transmissionDB s' =
                TransmissionDB.addTransmission (message s)
                  (h_encrypted (entryOf toUpperCase now s)) now
                  (modeName (encryptionMode s)) (transmissionDB s))).
Proof.
  intros Hrunning. revert s'. apply rtc_ind_r.
  - split; [done|]. by left.
  - intros s1 s2 _ Hstep [(Hmode & Hshift & Hkey) IH].
    destruct Hstep as [e|now Htx _|].
    + destruct (applyEvent_frame s1 e) as (-> & -> & -> & -> & -> & -> & -> & ->).
      done.
    + split; [done|]. right.
      destruct IH as [(_ & Hmsg & _ & Hhist & Hdb)|(Hidle & _)]; [|congruence].
      split; [done|]. split; [done|]. exists now.
      cbn. unfold entryOf. cbn.
      rewrite (encryptMessage_config s s1) by done.
      rewrite Hmsg, Hhist, Hdb, Hmode. done.
    + destruct IH as [IH|IH].
      * rewrite transmitButton_disabled_running by tauto. split; [done|]. by left.
      * rewrite transmitButton_disabled_blank.
        -- split; [done|]. by right.
        -- destruct IH as (_ & -> & _). done.
Qed.

Lemma running_invariant (s s' : AppState) :
  isTransmitting s = true →
  rtc (step toUpperCase) s s' →
  (isTransmitting s' = true
   ∧ message s' = message s
   ∧ morseOutput s' = morseOutput s
   ∧ transmissionHistory s' = transmissionHistory s
   ∧ transmissionDB s' = transmissionDB s)
  ∨ (isTransmitting s' = false
     ∧ ∃ now,
         transmissionHistory s' =
           transmissionHistory s ++ [entryOf toUpperCase now s]
         ∧ transmissionDB s' =
             TransmissionDB.addTransmission (message s)
               (h_encrypted (entryOf toUpperCase now s)) now
               (modeName (encryptionMode s)) (transmissionDB s)).
Proof.
  intros Hrunning Hrun.
  destruct (run_invariant s s' Hrunning Hrun) as [_ [?|(Hidle & _ & Hlog)]];
    [left|right]; done.
Qed.

(** The guarded path.  While a transmission is running, a click on the
    transmit button is a no-op, because the button is disabled: the state is
    unchanged and nothing is emitted.  Whatever follows (timer callbacks,
    further clicks on that button, the completion), the message and the
    pulse sequence stay as they are until the completion, and the
    completion appends one entry, for the message of the running
    transmission; nothing is appended after it. *)
Lemma transmit_click_while_running (s s' : AppState) :
  isTransmitting s = true →
  transmitButton_onClick toUpperCase s = (s, [])
  ∧ (rtc (step toUpperCase) s s' →
     (isTransmitting s' = true
      ∧ message s' = message s
      ∧ morseOutput s' = morseOutput s
      ∧ transmissionHistory s' = transmissionHistory s)
     ∨ (isTransmitting s' = false
        ∧ ∃ now,
            transmissionHistory s' =
              transmissionHistory s ++ [entryOf toUpperCase now s])).
Proof.
  intros Hrunning. split; [by apply transmitButton_disabled_running|].
  intros Hrun.
  destruct (running_invariant s s' Hrunning Hrun)
    as [(? & ? & ? & ? & _)|(? & now & ? & _)]; [left; done|].
  right. split; [done|]. by exists now.
Qed.

(** *** The pulse strings of [SOS] *)

Lemma textToMorse_SOS :
  textToMorse toUpperCase (js "SOS") = [js "..."; js "---"; js "..."].
Proof.
  unfold textToMorse. rewrite toUpperCase_ascii.
  - by vm_compute.
  - unfold is_ascii. cbn. repeat (constructor; [lia|]). constructor.
Qed.

End TransmissionProperties.

(** ** The history store *)

Section HistoryStore.

Import TransmissionDB.

Lemma insertDesc_smallest (r : Row) (sorted : list Row) :
  Forall (λ r', id r < id r') sorted → insertDesc r sorted = sorted ++ [r].
Proof.
  induction 1 as [|r' sorted Hr' _ IH]; [done|].
  simpl. replace (id r' <? id r) with false by (symmetry; apply Z.ltb_ge; lia).
  by rewrite IH.
Qed.

Lemma ids_increasing_cons (r : Row) (rows : list Row) :
  ids_increasing (r :: rows) →
  Forall (λ r', id r < id r') rows ∧ ids_increasing rows.
Proof.
  intros Hinc. split.
  - apply Forall_lookup. intros i r' Hi.
    apply (Hinc 0%nat (S i) r r'); [done|done|lia].
  - intros i j ri rj Hi Hj Hij.
    apply (Hinc (S i) (S j) ri rj); [done|done|lia].
Qed.

(** When the ids grow with the insertion order, [ORDER BY id DESC] is the
    insertion order reversed. *)
Lemma orderByIdDesc_reverse (rows : list Row) :
  ids_increasing rows → orderByIdDesc rows = reverse rows.
Proof.
  induction rows as [|r rows IH]; intros Hinc; [done|].
  apply ids_increasing_cons in Hinc as [Hr Hinc].
  unfold orderByIdDesc in *. simpl. rewrite IH by done.
  rewrite insertDesc_smallest, reverse_cons; [done|].
  apply Forall_forall. intros r' Hr'. rewrite elem_of_reverse in Hr'.
  by eapply Forall_forall in Hr.
Qed.

Lemma maxId_bound (rows : list Row) (r : Row) : r ∈ rows → id r <= maxId rows.
Proof.
  induction 1 as [r rows|r r' rows _ IH]; simpl; lia.
Qed.

(** An insert keeps the ids growing. *)
Lemma insertRow_ids_increasing (m : jsstring) (e : option jsstring)
    (ts mode : jsstring) (d : Database) :
  ids_increasing (transmissions d) →
  ids_increasing (transmissions (insertRow m e ts mode d)).
Proof.
  intros Hinc i j ri rj Hi Hj Hij. simpl in Hi, Hj.
  apply lookup_snoc_Some in Hj as [[Hlen Hj]|[Hlen <-]].
  - rewrite lookup_app_l in Hi by lia. by eapply Hinc.
  - rewrite lookup_app_l in Hi by lia. simpl.
    apply list_elem_of_lookup_2, maxId_bound in Hi. lia.
Qed.

Lemma addTransmission_wf (m : jsstring) (e : option jsstring)
    (ts mode : jsstring) (st : t) :
  wf st → wf (addTransmission m e ts mode st).
Proof.
  unfold wf, addTransmission. destruct (db st) as [d|] eqn:Hdb.
  - intros Hinc. cbn. by apply insertRow_ids_increasing.
  - by rewrite Hdb.
Qed.

(** The rows after a series of appends: the old rows, then one row per
    entry in the order of the appends. *)
Lemma addAll_rows (entries : list Recent) (mode : jsstring) (st : t) (d : Database) :
  db st = Some d →
  ∃ d' new,
    db (addAll entries mode st) = Some d'
    ∧ transmissions d' = transmissions d ++ new
    ∧ toRecent <$> new = entries.
Proof.
  revert st d. induction entries as [|e entries IH]; intros st d Hdb.
  - exists d, []. by rewrite app_nil_r.
  - cbn [addAll foldl].
    set (st1 := addTransmission (r_message e) (r_encrypted e) (r_timestamp e) mode st).
    assert (db st1 =
            Some (insertRow (r_message e) (r_encrypted e) (r_timestamp e) mode d))
      as Hdb1 by (unfold st1, addTransmission; by rewrite Hdb).
    destruct (IH st1 _ Hdb1) as (d' & new & Hd' & Hrows & Hnew).
    eexists d', (_ :: new). split; [exact Hd'|]. split.
    + rewrite Hrows. cbn. by rewrite <- app_assoc.
    + rewrite fmap_cons, Hnew. by destruct e.
Qed.

Lemma addAll_wf (entries : list Recent) (mode : jsstring) (st : t) :
  wf st → wf (addAll entries mode st).
Proof.
  revert st. induction entries as [|e entries IH]; intros st Hwf; [done|].
  apply IH. by apply addTransmission_wf.
Qed.

(** The row of an append is what [getRecentTransmissions(1)] returns. *)
Lemma getRecentTransmissions_after_add (m : jsstring) (e : option jsstring)
    (ts mode : jsstring) (st : t) :
  is_Some (db st) → wf st →
  getRecentTransmissions 1 (addTransmission m e ts mode st) =
  [{| r_message := m; r_encrypted := e; r_timestamp := ts |}].
Proof.
  intros [d Hdb] Hwf. unfold wf in Hwf. rewrite Hdb in Hwf.
  pose proof (insertRow_ids_increasing m e ts mode d Hwf) as Hinc.
  unfold addTransmission, getRecentTransmissions. rewrite Hdb.
  cbn [save db]. rewrite orderByIdDesc_reverse by done.
  unfold insertRow. cbn [transmissions]. rewrite reverse_snoc. done.
Qed.

(** C2, as the code has it. After [k] appends to an initialised store
    whose ids grow with the insertion order, [getRecentTransmissions(n)]
    with [n < k] returns exactly the [n] entries appended last, the most
    recent one first (the query orders by id, descending). *)
Theorem getRecentTransmissions_recent_first
    (st : t) (entries : list Recent) (mode : jsstring) (n : nat) :
  is_Some (db st) → wf st → (n < length entries)%nat →
  getRecentTransmissions (Z.of_nat n) (addAll entries mode st) =
  take n (reverse entries).
Proof.
  intros [d Hdb] Hwf Hn.
  destruct (addAll_rows entries mode st d Hdb) as (d' & new & Hd' & Hrows & Hnew).
  pose proof (addAll_wf entries mode st Hwf) as Hwf'.
  unfold wf in Hwf'. rewrite Hd' in Hwf'.
  unfold getRecentTransmissions. rewrite Hd'.
  rewrite orderByIdDesc_reverse by done.
  unfold sqlLimit.
  replace (Z.of_nat n <? 0) with false by (symmetry; apply Z.ltb_ge; lia).
  rewrite Nat2Z.id.
  assert (toRecent <$> take n (reverse (transmissions d')) = take n (reverse entries))
    as Hres.
  { rewrite Hrows, reverse_app, take_app_le.
    - by rewrite fmap_take, fmap_reverse, Hnew.
    - rewrite length_reverse, <- (length_fmap toRecent), Hnew. lia. }
  rewrite <- Hres. by destruct (take n (reverse (transmissions d'))).
Qed.

End HistoryStore.


(** ** A transmission and the log *)

Section TransmissionLog.

Variable toUpperCase : jsstring → jsstring.
Hypothesis toUpperCase_ascii :
  ∀ s, is_ascii s → toUpperCase s = asciiUpper s.

(** C4. A transmission of [SOS] without a transform mode, started by the
    transmit button with [SOS] in the message field or by the SOS button:
    the pulse strings are [...], [---], [...], in symbols [...---...], and
    the transmission runs from the first of them.  However the timer
    callbacks of its chains interleave, nothing is appended before the
    completion; the completion appends exactly one entry to the log, for
    the message [SOS], and one row to the database, which an initialised
    store then returns as its most recent row; nothing is appended after
    it. *)
Theorem sos_transmission (s s1 : AppState) :
  encryptionMode s = none →
  (message s = js "SOS" ∧ s1 = (handleTransmit toUpperCase s).1)
  ∨ s1 = handleEmergencySOS_timeout toUpperCase (sosButton_onClick s).1 →
  morseOutput s1 = [js "..."; js "---"; js "..."]
  ∧ mjoin (morseOutput s1) = js "...---..."
  ∧ isTransmitting s1 = true
  ∧ currentSignalIndex s1 = 0%nat
  ∧ ∀ s', rtc (step toUpperCase) s1 s' →
      (isTransmitting s' = true
       ∧ morseOutput s' = [js "..."; js "---"; js "..."]
       ∧ transmissionHistory s' = transmissionHistory s
       ∧ transmissionDB s' = transmissionDB s)
      ∨ (isTransmitting s' = false
         ∧ ∃ now,
             transmissionHistory s' =
               transmissionHistory s ++
               [{| h_message := js "SOS"; h_timestamp := now;
                   h_encrypted := Some (js "SOS") |}]
             ∧ transmissionDB s' =
                 TransmissionDB.addTransmission (js "SOS") (Some (js "SOS")) now
                   (js "none") (transmissionDB s)
             ∧ (is_Some (TransmissionDB.db (transmissionDB s)) →
                TransmissionDB.wf (transmissionDB s) →
                TransmissionDB.getRecentTransmissions 1 (transmissionDB s') =
                  [{| TransmissionDB.r_message := js "SOS";
                      TransmissionDB.r_encrypted := Some (js "SOS");
                      TransmissionDB.r_timestamp := now |}])).
Proof.
  intros Hmode Hstart.
  assert (morseOutput s1 = [js "..."; js "---"; js "..."]
          ∧ isTransmitting s1 = true ∧ currentSignalIndex s1 = 0%nat
          ∧ message s1 = js "SOS" ∧ encryptionMode s1 = none
          ∧ transmissionHistory s1 = transmissionHistory s
          ∧ transmissionDB s1 = transmissionDB s)
    as (Hmorse & Htx & Hidx & Hmsg & Hmode1 & Hhist & Hdb).
  { destruct Hstart as [[Hmsg ->]| ->].
    - unfold handleTransmit, encryptMessage. rewrite Hmsg, Hmode.
      change (truthy (trim (js "SOS"))) with true. cbn [forMorse fst].
      rewrite (textToMorse_SOS toUpperCase toUpperCase_ascii).
      by destruct s.
    - unfold handleEmergencySOS_timeout, sosButton_onClick, handleEmergencySOS.
      rewrite (textToMorse_SOS toUpperCase toUpperCase_ascii).
      by destruct s. }
  rewrite Hmorse. split_and!; [done | done | done | done |].
  intros s' Hrun.
  destruct (running_invariant toUpperCase s1 s' Htx Hrun)
    as [(Htx' & _ & Hmorse' & Hhist' & Hdb')|(Hidle & now & Hhist' & Hdb')].
  - left. by rewrite Hmorse', <- Hmorse, Hhist', Hdb', Hhist, Hdb.
  - right. split; [done|]. exists now.
    assert (entryOf toUpperCase now s1 =
            {| h_message := js "SOS"; h_timestamp := now;
               h_encrypted := Some (js "SOS") |}) as Hentry
      by (unfold entryOf, encryptMessage; by rewrite Hmsg, Hmode1).
    rewrite Hentry, Hmsg, Hmode1, Hhist, Hdb in *.
    split_and!; [done | done |].
    intros Hopen Hwf. rewrite Hdb'.
    by apply getRecentTransmissions_after_add.
Qed.

(** A transmission in steps.  However the timer callbacks of the chains in
    flight interleave: while the transmission runs, the message, the pulse
    strings, the log and the database are as at its start; once the index
    has passed the last character, the run of the effect completes it, with
    exactly one entry appended to the log and one row to the database, both
    for the message, and with the message, the index and the flash reset;
    after the completion nothing more is appended (a chain still in flight
    writes the index and the flash only). *)
Theorem transmission_completes (now : jsstring) (s s' : AppState) :
  isTransmitting s = true →
  rtc (step toUpperCase) s s' →
  (isTransmitting s' = true →
   message s' = message s
   ∧ morseOutput s' = morseOutput s
   ∧ transmissionHistory s' = transmissionHistory s
   ∧ transmissionDB s' = transmissionDB s
   ∧ ((length (morseOutput s') ≤ currentSignalIndex s')%nat →
      let final := (transmissionEffect toUpperCase now s').1 in
      isTransmitting final = false
      ∧ transmissionHistory final =
          transmissionHistory s ++ [entryOf toUpperCase now s]
      ∧ transmissionDB final =
          TransmissionDB.addTransmission (message s)
            (h_encrypted (entryOf toUpperCase now s)) now
            (modeName (encryptionMode s)) (transmissionDB s)
      ∧ message final = []
      ∧ currentSignalIndex final = 0%nat
      ∧ isFlashing final = false
      ∧ currentSignalType final = None))
  ∧ (isTransmitting s' = false →
     message s' = []
     ∧ ∃ now',
         transmissionHistory s' =
           transmissionHistory s ++ [entryOf toUpperCase now' s]
         ∧ transmissionDB s' =
             TransmissionDB.addTransmission (message s)
               (h_encrypted (entryOf toUpperCase now' s)) now'
               (modeName (encryptionMode s)) (transmissionDB s)).
Proof.
  intros Htx Hrun.
  destruct (run_invariant toUpperCase s s' Htx Hrun)
    as [(Hmode & Hshift & Hkey) [(Htx' & Hmsg & Hmorse & Hhist & Hdb)|(Hidle & Hmsg & Hlog)]].
  - split; [|congruence]. intros _. split_and!; [done..|].
    intros Hlast final. subst final.
    rewrite transmissionEffect_complete by done.
    cbn [fst]. unfold completeTransmission, entryOf.
    cbn [isTransmitting transmissionHistory transmissionDB message currentSignalIndex
         isFlashing currentSignalType h_encrypted
         setMessage setCurrentSignalType setIsFlashing setCurrentSignalIndex
         setIsTransmitting setTransmissionDB setTransmissionHistory].
    rewrite (encryptMessage_config toUpperCase s s') by done.
    rewrite Hmsg, Hhist, Hdb, Hmode. done.
  - split; [congruence|]. intros _. done.
Qed.

(** The log after a click on a button that has no guard.  [s1] is a
    running state, [s3] the state right after the timeout of the click has
    started the new transmission in a state [s2] that the run had reached. *)
Lemma replaced_log (s1 s2 s3 s' : AppState) :
  isTransmitting s1 = true →
  rtc (step toUpperCase) s1 s2 →
  isTransmitting s3 = true →
  message s3 = message s2 →
  transmissionHistory s3 = transmissionHistory s2 →
  rtc (step toUpperCase) s3 s' →
  ∃ new,
    transmissionHistory s' = transmissionHistory s1 ++ new
    ∧ (length new ≤ 2)%nat
    ∧ Forall (λ e, h_message e = message s1 ∨ h_message e = []) new.
Proof.
  intros Htx1 Hrun1 Htx3 Hmsg3 Hhist3 Hrun3.
  destruct (run_invariant toUpperCase s1 s2 Htx1 Hrun1)
    as [_ [(_ & Hmsg2 & _ & Hhist2 & _)|(_ & Hmsg2 & now2 & Hhist2 & _)]];
    destruct (run_invariant toUpperCase s3 s' Htx3 Hrun3)
      as [_ [(_ & _ & _ & Hhist' & _)|(_ & _ & now' & Hhist' & _)]];
    rewrite Hhist', Hhist3, Hhist2.
  - exists []. rewrite app_nil_r. split_and!; [done | cbn; lia | constructor].
  - eexists [_]. split_and!; [done | cbn; lia |].
    apply Forall_cons. split; [|apply Forall_nil_2].
    left. cbn. congruence.
  - eexists [_]. split_and!; [done | cbn; lia |].
    apply Forall_cons. split; [by left | apply Forall_nil_2].
  - eexists [_; _]. rewrite <- app_assoc. split_and!; [done | cbn; lia |].
    apply Forall_cons. split; [by left|].
    apply Forall_cons. split; [|apply Forall_nil_2].
    right. cbn. congruence.
Qed.

(** A preset button clicked while a transmission is running replaces that
    transmission.  The click is accepted: it sets the message to the preset
    and starts the timer of 100 ms.  Whatever the chains in flight do until
    that timer fires (they may complete the old transmission) and after it,
    the callback of the timer starts the transmission of the preset from its
    first character, and all that is ever logged is at most two entries,
    for the preset or for an empty message: the message that was being
    transmitted is not logged. *)
Theorem preset_replaces_running_transmission
    (preset : jsstring) (s0 s2 s' : AppState) :
  isTransmitting s0 = true →
  rtc (step toUpperCase) (presetButton_onClick preset s0).1 s2 →
  rtc (step toUpperCase) (handlePreset_timeout toUpperCase preset s2) s' →
  (presetButton_onClick preset s0).2 = [InitAudio; PlayClick; SetTimeout 100]
  ∧ message (presetButton_onClick preset s0).1 = preset
  ∧ isTransmitting (handlePreset_timeout toUpperCase preset s2) = true
  ∧ currentSignalIndex (handlePreset_timeout toUpperCase preset s2) = 0%nat
  ∧ morseOutput (handlePreset_timeout toUpperCase preset s2)
    = textToMorse toUpperCase preset
  ∧ ∃ new,
      transmissionHistory s' = transmissionHistory s0 ++ new
      ∧ (length new ≤ 2)%nat
      ∧ Forall (λ e, h_message e = preset ∨ h_message e = []) new.
Proof.
  intros Htx Hrun1 Hrun3. split_and!; [done..|].
  by apply (replaced_log (presetButton_onClick preset s0).1 s2
              (handlePreset_timeout toUpperCase preset s2) s').
Qed.

(** The same for the SOS button. *)
Theorem sos_replaces_running_transmission (s0 s2 s' : AppState) :
  isTransmitting s0 = true →
  rtc (step toUpperCase) (sosButton_onClick s0).1 s2 →
  rtc (step toUpperCase) (handleEmergencySOS_timeout toUpperCase s2) s' →
  (sosButton_onClick s0).2 = [InitAudio; PlayClick; SetTimeout 100]
  ∧ message (sosButton_onClick s0).1 = js "SOS"
  ∧ emergencyMode (sosButton_onClick s0).1 = true
  ∧ isTransmitting (handleEmergencySOS_timeout toUpperCase s2) = true
  ∧ currentSignalIndex (handleEmergencySOS_timeout toUpperCase s2) = 0%nat
  ∧ morseOutput (handleEmergencySOS_timeout toUpperCase s2)
    = textToMorse toUpperCase (js "SOS")
  ∧ ∃ new,
      transmissionHistory s' = transmissionHistory s0 ++ new
      ∧ (length new ≤ 2)%nat
      ∧ Forall (λ e, h_message e = js "SOS" ∨ h_message e = []) new.
Proof.
  intros Htx Hrun1 Hrun3. split_and!; [done..|].
  by apply (replaced_log (sosButton_onClick s0).1 s2
              (handleEmergencySOS_timeout toUpperCase s2) s').
Qed.

End TransmissionLog.

Lemma threeCharactersOn_run (toUpperCase : jsstring → jsstring) (s : AppState) :
  rtc (step toUpperCase) s (threeCharactersOn s).
Proof.
  unfold threeCharactersOn. cbn [foldl].
  do 3 (eapply rtc_r; [|apply step_timer]). apply rtc_refl.
Qed.

(** C1 at the SOS button.  The message [AA] is being transmitted and the
    SOS button, which is never disabled, is clicked: the click is accepted,
    and when its timeout fires the message is [SOS], the pulse strings of
    [AA] are replaced by those of [SOS] and the index is back at 0.  Every
    run from there that ends idle has logged one entry, for [SOS], and none
    for [AA]; the run in which the index moves three times and the effect
    then completes is one of them. *)
Theorem sos_click_while_running :
  (isTransmitting transmittingAA = true
   ∧ message transmittingAA = js "AA"
   ∧ morseOutput transmittingAA = [js ".-"; js ".-"]
   ∧ transmissionHistory transmittingAA = [])
  ∧ sosButton_onClick transmittingAA
    = (setMessage (js "SOS") (setEmergencyMode true transmittingAA),
       [InitAudio; PlayClick; SetTimeout 100])
  ∧ (isTransmitting sosDuringAA = true
     ∧ message sosDuringAA = js "SOS"
     ∧ morseOutput sosDuringAA = [js "..."; js "---"; js "..."]
     ∧ currentSignalIndex sosDuringAA = 0%nat)
  ∧ (∀ s', rtc (step asciiUpper) sosDuringAA s' →
       isTransmitting s' = false →
       h_message <$> transmissionHistory s' = [js "SOS"])
  ∧ rtc (step asciiUpper) sosDuringAA
      (completeTransmission asciiUpper (js "12:00:09") (threeCharactersOn sosDuringAA))
  ∧ isTransmitting
      (completeTransmission asciiUpper (js "12:00:09") (threeCharactersOn sosDuringAA))
    = false
  ∧ h_message <$>
      transmissionHistory
        (completeTransmission asciiUpper (js "12:00:09") (threeCharactersOn sosDuringAA))
    = [js "SOS"].
Proof.
  split; [vm_compute; done|]. split; [reflexivity|]. split; [vm_compute; done|].
  split; [|split; [|split]].
  - intros s' Hrun Hidle.
    destruct (running_invariant asciiUpper sosDuringAA s' eq_refl Hrun)
      as [(Htx & _)|(_ & now & Hlog & _)]; [congruence|].
    rewrite Hlog. reflexivity.
  - eapply rtc_r; [apply threeCharactersOn_run|].
    apply step_complete; [reflexivity | vm_compute; lia].
  - reflexivity.
  - vm_compute. reflexivity.
Qed.

(** ** Further properties of the log *)

(** The log that [loadDatabase] shows after mount is most recent last: the
    (at most 20) rows appended last, in the order of their appends. *)
Theorem loadDatabase_most_recent_last (d : TransmissionDB.Database) :
  TransmissionDB.ids_increasing (TransmissionDB.transmissions d) →
  transmissionHistory (loadDatabase (initialState (Some d))) =
  (historyEntryOf ∘ TransmissionDB.toRecent) <$>
    drop (length (TransmissionDB.transmissions d) - 20)
         (TransmissionDB.transmissions d).
Proof.
  intros Hinc. unfold loadDatabase.
  cbn [initialState transmissionDB TransmissionDB.init TransmissionDB.fresh
       TransmissionDB.initialized TransmissionDB.localStorage TransmissionDB.db].
  unfold TransmissionDB.getRecentTransmissions.
  cbn [TransmissionDB.db].
  rewrite orderByIdDesc_reverse by done.
  change (TransmissionDB.sqlLimit 20 ?l) with (take 20 l).
  rewrite take_reverse.
  set (rows := drop (length (TransmissionDB.transmissions d) - 20)
                 (TransmissionDB.transmissions d)).
  destruct (reverse rows) as [|r rest] eqn:Hrev.
  - apply (f_equal reverse) in Hrev. rewrite reverse_involutive in Hrev.
    rewrite Hrev. done.
  - rewrite <- Hrev.
    replace (0 <? length (TransmissionDB.toRecent <$> reverse rows))%nat with true
      by (rewrite Hrev; done).
    cbn [transmissionHistory setTransmissionHistory].
    rewrite <- !fmap_reverse, reverse_involutive, <- list_fmap_compose. done.
Qed.

(** ** Sessions of the history store *)

Section StoreSessions.

Import TransmissionDB.

Lemma maxId_nonneg (rows : list Row) : 0 <= maxId rows.
Proof. induction rows as [|r rows IH]; simpl; lia. Qed.

Lemma insertRow_db_ok (m : jsstring) (e : option jsstring) (ts mode : jsstring)
    (d : Database) :
  db_ok d → db_ok (insertRow m e ts mode d).
Proof.
  intros [Hinc Hids]. split; [by apply insertRow_ids_increasing|].
  pose proof (maxId_nonneg (transmissions d)).
  cbn. apply Forall_app. split.
  - eapply Forall_impl; [exact Hids|]. cbn. intros r ?. lia.
  - constructor; [cbn; lia|constructor].
Qed.

Lemma ids_increasing_nil : ids_increasing [].
Proof. intros i j ri rj Hi. inversion Hi. Qed.

Lemma db_ok_empty (seq : Z) :
  db_ok {| transmissions := []; sqlite_sequence := seq |}.
Proof. split; [apply ids_increasing_nil | constructor]. Qed.

Lemma dbCall_store_ok (st : t) (c : DbCall) : store_ok st → store_ok (dbCall st c).
Proof.
  intros (Hdb & Hsaved & Hinit & Hsync).
  destruct st as [[d|] ini saved]; cbn in *.
  - (* a database is open *)
    assert (ini = true) as Hini by (apply Hinit; by eexists).
    assert (saved = Some d) as Hs by (apply Hsync; by eexists).
    subst ini saved.
    assert (db_ok d) as Hd by (by apply Hdb).
    destruct c as [|m e ts mode| |]; cbn.
    + by split_and!.
    + pose proof (insertRow_db_ok m e ts mode d Hd).
      split_and!; [by intros ? [= <-] | by intros ? [= <-] | by split; eauto | done].
    + pose proof (db_ok_empty (sqlite_sequence d)).
      split_and!; [by intros ? [= <-] | by intros ? [= <-] | by split; eauto | done].
    + by split_and!.
  - (* no database yet *)
    assert (ini = false) as Hini.
    { destruct ini; [|done]. destruct Hinit as [Hinit _].
      by destruct (Hinit eq_refl). }
    subst ini.
    destruct c as [|m e ts mode| |]; cbn; [|by split_and! ..].
    destruct saved as [d|]; cbn.
    + assert (db_ok d) as Hd by (by apply Hsaved).
      split_and!; [by intros ? [= <-] | by intros ? [= <-] | by split; eauto | done].
    + pose proof (db_ok_empty 0).
      split_and!; [by intros ? [= <-] | by intros ? [= <-] | by split; eauto | done].
Qed.

Lemma fresh_store_ok (saved : option Database) :
  (∀ d, saved = Some d → db_ok d) → store_ok (fresh saved).
Proof.
  intros Hsaved. split_and!; cbn; [done | done | | by intros [? ?]].
  split; [done | by intros [? ?]].
Qed.

(** Whatever is called on the module, in whatever order, a session that
    starts from a saved database that this code wrote (or from none) keeps
    the store consistent: row ids grow with the insertion order and stay
    within [sqlite_sequence], and once the module is initialised the saved
    database is the current one. *)
Theorem session_store_ok (saved : option Database) (calls : list DbCall) :
  (∀ d, saved = Some d → db_ok d) →
  store_ok (foldl dbCall (fresh saved) calls).
Proof.
  intros Hsaved. apply fresh_store_ok in Hsaved. revert Hsaved.
  generalize (fresh saved). induction calls as [|c calls IH]; intros st Hok; [done|].
  cbn. by apply IH, dbCall_store_ok.
Qed.

Lemma dbCall_synced (st : t) (c : DbCall) :
  is_Some (db st) ∧ localStorage st = db st →
  is_Some (db (dbCall st c)) ∧ localStorage (dbCall st c) = db (dbCall st c).
Proof.
  intros [[d Hd] Hsync]. destruct st as [dbv ini saved]. cbn in *. subst.
  destruct c; cbn; [destruct ini; cbn|..]; by eauto.
Qed.

Lemma init_synced (saved : option Database) :
  is_Some (db (init (fresh saved)))
  ∧ localStorage (init (fresh saved)) = db (init (fresh saved)).
Proof. destruct saved; cbn; by eauto. Qed.

(** Persistence across sessions: after [init] and any further calls, a new
    module initialised from what this one saved returns the same rows.  (The
    bytes that [export] gives are taken to load back as the database they
    were exported from.) *)
Theorem reload_sees_session (saved : option Database) (calls : list DbCall) (limit : Z) :
  let st := foldl dbCall (init (fresh saved)) calls in
  let reloaded := init (fresh (localStorage st)) in
  getAllTransmissions reloaded = getAllTransmissions st
  ∧ getRecentTransmissions limit reloaded = getRecentTransmissions limit st.
Proof.
  intros st reloaded.
  assert (is_Some (db st) ∧ localStorage st = db st) as [[d Hd] Hsync].
  { subst st. generalize (init_synced saved). generalize (init (fresh saved)).
    induction calls as [|c calls IH]; intros st0 H0; [done|].
    cbn. by apply IH, dbCall_synced. }
  subst reloaded. rewrite Hsync, Hd. cbn.
  unfold getAllTransmissions, getRecentTransmissions. cbn. by rewrite Hd.
Qed.

(** Before [init] the module has no database: appends and [clearAll] do
    nothing and the queries return the empty list, so what is appended before
    [init] is not there after it. *)
Theorem calls_before_init_are_lost (saved : option Database)
    (entries : list Recent) (mode : jsstring) (limit : Z) :
  let st := clearAll (addAll entries mode (fresh saved)) in
  st = fresh saved
  ∧ getAllTransmissions st = []
  ∧ getRecentTransmissions limit st = []
  ∧ init st = init (fresh saved).
Proof.
  assert (addAll entries mode (fresh saved) = fresh saved) as Hadd.
  { induction entries as [|e entries IH]; [done|]. cbn. exact IH. }
  cbn. rewrite Hadd. done.
Qed.

(** The rows of a table whose ids grow, as [getAllTransmissions] returns
    them. *)
Lemma getAllTransmissions_reverse (st : t) (d : Database) :
  db st = Some d → ids_increasing (transmissions d) →
  getAllTransmissions st = reverse (transmissions d).
Proof.
  intros Hd Hinc. unfold getAllTransmissions. rewrite Hd.
  rewrite orderByIdDesc_reverse by done. by destruct (reverse _).
Qed.

(** [getAllTransmissions] after a series of appends: the appended entries,
    the one appended last first, then the rows that were there before, with
    ids that go down from row to row. *)
Theorem getAllTransmissions_after_appends (st : t) (entries : list Recent)
    (mode : jsstring) :
  is_Some (db st) → wf st →
  let rows := getAllTransmissions (addAll entries mode st) in
  toRecent <$> rows = reverse entries ++ (toRecent <$> getAllTransmissions st)
  ∧ (∀ i j ri rj, rows !! i = Some ri → rows !! j = Some rj →
       (i < j)%nat → id rj < id ri).
Proof.
  intros [d Hd] Hwf rows.
  destruct (addAll_rows entries mode st d Hd) as (d' & new & Hd' & Hrows & Hnew).
  pose proof (addAll_wf entries mode st Hwf) as Hwf'.
  unfold wf in Hwf, Hwf'. rewrite Hd in Hwf. rewrite Hd' in Hwf'.
  subst rows.
  rewrite (getAllTransmissions_reverse _ d' Hd' Hwf').
  rewrite (getAllTransmissions_reverse _ d Hd Hwf).
  split.
  - by rewrite Hrows, reverse_app, fmap_app, !fmap_reverse, Hnew.
  - intros i j ri rj Hi Hj Hij.
    pose proof (lookup_lt_Some _ _ _ Hi) as Hli.
    pose proof (lookup_lt_Some _ _ _ Hj) as Hlj.
    rewrite length_reverse in Hli, Hlj.
    rewrite reverse_lookup in Hi by done.
    rewrite reverse_lookup in Hj by done.
    apply (Hwf' _ _ _ _ Hj Hi). lia.
Qed.

(** [getRecentTransmissions] against [getAllTransmissions]: a limit that is
    not negative gives the first rows of the full list, at most [limit] of
    them (none for 0); a negative limit gives them all. *)
Theorem getRecentTransmissions_limit (st : t) (limit : Z) :
  getRecentTransmissions limit st =
    toRecent <$> (if limit <? 0 then getAllTransmissions st
                  else take (Z.to_nat limit) (getAllTransmissions st))
  ∧ (0 <= limit → (length (getRecentTransmissions limit st) <= Z.to_nat limit)%nat).
Proof.
  assert (getRecentTransmissions limit st =
          toRecent <$> (if limit <? 0 then getAllTransmissions st
                        else take (Z.to_nat limit) (getAllTransmissions st))) as Heq.
  { unfold getRecentTransmissions, getAllTransmissions, sqlLimit.
    destruct (db st) as [d|]; [|destruct (limit <? 0); by rewrite ?take_nil].
    destruct (limit <? 0).
    - by destruct (orderByIdDesc (transmissions d)).
    - destruct (orderByIdDesc (transmissions d)) as [|r rows] eqn:Hrows.
      + by rewrite take_nil.
      + by destruct (take (Z.to_nat limit) (r :: rows)). }
  split; [exact Heq|].
  intros Hlimit. rewrite Heq.
  replace (limit <? 0) with false by (symmetry; apply Z.ltb_ge; lia).
  rewrite length_fmap, length_take. lia.
Qed.

Lemma dbCall_sequence_grows (st : t) (c : DbCall) (d : Database) :
  store_ok st → db st = Some d →
  ∃ d', db (dbCall st c) = Some d' ∧ sqlite_sequence d <= sqlite_sequence d'.
Proof.
  intros (_ & _ & Hinit & _) Hd.
  assert (initialized st = true) as Hini by (apply Hinit; by eexists).
  destruct st as [dbv ini saved]. cbn in Hd, Hini. subst dbv ini.
  destruct c as [|m e ts mode| |]; cbn; eexists; (split; [done|]); cbn; lia.
Qed.

Lemma session_sequence_grows (calls : list DbCall) (st : t) (d : Database) :
  store_ok st → db st = Some d →
  ∃ d', db (foldl dbCall st calls) = Some d'
        ∧ sqlite_sequence d <= sqlite_sequence d'
        ∧ store_ok (foldl dbCall st calls).
Proof.
  revert st d. induction calls as [|c calls IH]; intros st d Hok Hd.
  - exists d. by split_and!.
  - destruct (dbCall_sequence_grows st c d Hok Hd) as (d1 & Hd1 & Hle).
    destruct (IH (dbCall st c) d1 (dbCall_store_ok st c Hok) Hd1)
      as (d' & Hd' & Hle' & Hok').
    exists d'. split_and!; [done | lia | done].
Qed.

(** Row ids are never used twice: the row that [addTransmission] inserts
    comes first in [getAllTransmissions], and its id is larger than the id of
    every row that was in the table at any earlier time of the session, also
    when [clearAll] has emptied the table in between. *)
Theorem ids_never_reused (st : t) (calls : list DbCall)
    (m : jsstring) (e : option jsstring) (ts mode : jsstring) (r : Row) :
  store_ok st → r ∈ getAllTransmissions st →
  ∃ r',
    head (getAllTransmissions (addTransmission m e ts mode (foldl dbCall st calls)))
      = Some r'
    ∧ message r' = m ∧ encrypted r' = e ∧ timestamp r' = ts
    ∧ id r < id r'.
Proof.
  intros Hok Hr.
  destruct (db st) as [d|] eqn:Hd;
    [|unfold getAllTransmissions in Hr; rewrite Hd in Hr; by apply elem_of_nil in Hr].
  destruct (proj1 Hok d Hd) as [Hinc Hids].
  rewrite (getAllTransmissions_reverse st d Hd Hinc), elem_of_reverse in Hr.
  eapply Forall_forall in Hids; [|exact Hr].
  destruct (session_sequence_grows calls st d Hok Hd) as (d1 & Hd1 & Hle & Hok1).
  destruct (proj1 Hok1 d1 Hd1) as [Hinc1 _].
  set (st1 := foldl dbCall st calls) in *.
  assert (db (addTransmission m e ts mode st1) = Some (insertRow m e ts mode d1)) as Hd2
    by (unfold addTransmission; by rewrite Hd1).
  rewrite (getAllTransmissions_reverse _ _ Hd2)
    by (by apply insertRow_ids_increasing).
  unfold insertRow. cbn [transmissions]. rewrite reverse_snoc.
  eexists. split_and!; try done. cbn.
  pose proof (maxId_nonneg (transmissions d1)). lia.
Qed.

End StoreSessions.

(** ** The sanity meter, the Konami code and the channel dial *)

Lemma sliceLast_length {A} (n : nat) (l : list A) : (length (sliceLast n l) <= n)%nat.
Proof. unfold sliceLast. rewrite length_drop. lia. Qed.

Lemma sliceLast_snoc {A} (n : nat) (l : list A) (x : A) :
  sliceLast (S n) (l ++ [x]) = sliceLast n l ++ [x].
Proof.
  unfold sliceLast. rewrite length_app. cbn [length].
  replace (length l + 1 - S n)%nat with (length l - n)%nat by lia.
  rewrite drop_app_le by lia. done.
Qed.

Lemma sliceLast_sliceLast {A} (n m : nat) (l : list A) :
  (n <= m)%nat → sliceLast n (sliceLast m l) = sliceLast n l.
Proof.
  intros Hnm. unfold sliceLast. rewrite length_drop, drop_drop. f_equal. lia.
Qed.

Lemma sliceLast_0 {A} (l : list A) : sliceLast 0 l = [].
Proof. unfold sliceLast. rewrite Nat.sub_0_r. apply drop_all. Qed.

(** The last four of the keys remembered after one more key. *)
Lemma konami_window (keys : list jsstring) (key : jsstring) :
  sliceLast 4 (sliceLast 10 (keys ++ [key])) = sliceLast 3 keys ++ [key].
Proof. rewrite sliceLast_sliceLast by lia. apply sliceLast_snoc. Qed.

(** A key other than [b] never completes the code. *)
Lemma handleKeyDown_other (key : jsstring) (p : PanelState) :
  key ≠ js "b" →
  handleKeyDown key p =
  (setKonamiSequence (sliceLast 10 (konamiSequence p ++ [key])) p, []).
Proof.
  intros Hkey. unfold handleKeyDown. rewrite konami_window.
  rewrite bool_decide_eq_false_2; [done|].
  intros Heq. apply (f_equal last) in Heq. rewrite last_snoc in Heq.
  apply Hkey. by injection Heq.
Qed.

(** The key [b] after ArrowUp, ArrowUp, a completes the code. *)
Lemma handleKeyDown_completes (p : PanelState) :
  sliceLast 3 (konamiSequence p) = [js "ArrowUp"; js "ArrowUp"; js "a"] →
  handleKeyDown (js "b") p =
  (setKonamiSequence []
     (setPossessionTimer 0 (setSanityHalves 200 (setIsPossessed false p))),
   [PlayClick]).
Proof.
  intros Hkeys. unfold handleKeyDown. rewrite konami_window, Hkeys.
  by rewrite bool_decide_eq_true_2.
Qed.

(** The Konami code clears a possession from every state of the panel and
    after any keys pressed before: once ArrowUp, ArrowUp, a, b have gone down
    in a row, the panel is not possessed, the sanity meter is at 100 points,
    the possession timer is at 0 and the remembered keys are forgotten. *)
Theorem konami_recovers (keys : list jsstring) (p : PanelState) :
  let p' := pressKeys (keys ++ KONAMI_CODE) p in
  isPossessed p' = false
  ∧ sanityHalves p' = 200
  ∧ possessionTimer p' = 0
  ∧ konamiSequence p' = [].
Proof.
  unfold pressKeys. rewrite foldl_app.
  generalize (foldl (λ p key, (handleKeyDown key p).1) p keys). clear p keys.
  intros p. unfold KONAMI_CODE. cbn [foldl].
  rewrite (handleKeyDown_other (js "ArrowUp")) by done. cbn [fst].
  rewrite (handleKeyDown_other (js "ArrowUp")) by done. cbn [fst].
  rewrite (handleKeyDown_other (js "a")) by done. cbn [fst].
  rewrite handleKeyDown_completes; [done|].
  cbn [konamiSequence setKonamiSequence].
  rewrite sliceLast_sliceLast, sliceLast_snoc by lia.
  rewrite sliceLast_sliceLast, sliceLast_snoc by lia.
  rewrite sliceLast_sliceLast, sliceLast_snoc by lia.
  by rewrite sliceLast_0.
Qed.

Lemma second_panel_ok (p : PanelState) : panel_ok p → panel_ok (second p).
Proof.
  intros (Hs & Ht & Hp & Hc & Hk).
  unfold panel_ok, second, possessionTick, sanityEffect, sanityTick.
  destruct p as [s possessed t keys c changing burst decode]. cbn in *.
  destruct possessed; cbn.
  - specialize (Hp eq_refl).
    replace (0 <? t) with true by (symmetry; apply Z.ltb_lt; lia). cbn.
    destruct (t <=? 1) eqn:H1; cbn.
    + split_and!; (done || lia).
    + apply Z.leb_gt in H1. split_and!; (done || lia).
  - destruct (0 <? s) eqn:H0; cbn.
    + apply Z.ltb_lt in H0.
      destruct (Z.max 0 (s - 1) <=? 0) eqn:H1; cbn; split_and!; (done || lia).
    + apply Z.ltb_ge in H0.
      replace (s <=? 0) with true by (symmetry; apply Z.leb_le; lia).
      cbn. split_and!; (done || lia).
Qed.

Lemma handleKeyDown_panel_ok (key : jsstring) (p : PanelState) :
  panel_ok p → panel_ok (handleKeyDown key p).1.
Proof.
  intros (Hs & Ht & Hp & Hc & Hk). unfold panel_ok, handleKeyDown.
  destruct (bool_decide _); cbn.
  - split_and!; (done || lia).
  - split_and!; first [done | lia | apply sliceLast_length].
Qed.

Lemma handleChannelChange_accepts (newChannel : Z) (p : PanelState) :
  (handleChannelChange newChannel p).2 ≠ [] ↔ 1 <= newChannel <= 4.
Proof.
  unfold handleChannelChange.
  destruct ((newChannel <? 1) || (4 <? newChannel)) eqn:Hout; cbn.
  - apply orb_true_iff in Hout. rewrite Z.ltb_lt, Z.ltb_lt in Hout.
    split; [done | lia].
  - apply orb_false_iff in Hout. rewrite !Z.ltb_ge in Hout. split; [lia | done].
Qed.

Lemma panel_step_ok (p p' : PanelState) : panel_ok p → panel_step p p' → panel_ok p'.
Proof.
  intros Hok Hstep. destruct Hstep as [|key|up|s newChannel Haccepted].
  - by apply second_panel_ok.
  - by apply handleKeyDown_panel_ok.
  - destruct Hok as (Hs & Ht & Hp & Hc & Hk). unfold panel_ok, handleChannelChange.
    destruct (_ || _); cbn; split_and!; (done || lia).
  - apply handleChannelChange_accepts in Haccepted.
    destruct Hok as (Hs & Ht & Hp & Hc & Hk). unfold panel_ok.
    assert (newChannel = 1 ∨ newChannel = 2 ∨ newChannel = 3 ∨ newChannel = 4)
      as [->|[->|[->| ->]]] by lia; cbn; split_and!; (done || lia).
Qed.

(** Whatever happens to the panel after mount (seconds passing, keys, clicks
    on the dial, channel changes), the sanity meter stays between 0 and 100
    points, a possession always has time left on its timer (so it ends), the
    channel stays between 1 and 4 (it always has a name) and at most ten keys
    are remembered. *)
Theorem panel_stays_in_range (p : PanelState) :
  rtc panel_step initialPanel p →
  panel_ok p ∧ getChannelName p ≠ js "UNKNOWN".
Proof.
  intros Hrun.
  assert (panel_ok p) as Hok.
  { revert p Hrun. apply rtc_ind_r.
    - unfold panel_ok. cbn. split_and!; (done || lia).
    - intros p1 p2 _ Hstep Hok. by eapply panel_step_ok. }
  split; [done|].
  destruct Hok as (_ & _ & _ & Hc & _). unfold getChannelName.
  assert (channel p = 1 ∨ channel p = 2 ∨ channel p = 3 ∨ channel p = 4)
    as [->|[->|[->| ->]]] by lia; done.
Qed.

(** A possession lasts as many seconds as its timer shows: the panel is
    possessed during all of them and recovered, with the sanity meter back at
    100 points, right after the last.  This holds for the 30 seconds that
    follow a sanity meter at 0 and for the 999 seconds of channel 2. *)
Theorem possession_lasts (p : PanelState) (t : nat) :
  isPossessed p = true →
  possessionTimer p = Z.of_nat (S t) →
  (∀ k, (k <= t)%nat →
     isPossessed (Nat.iter k second p) = true
     ∧ possessionTimer (Nat.iter k second p) = Z.of_nat (S t - k))
  ∧ isPossessed (Nat.iter (S t) second p) = false
  ∧ sanityHalves (Nat.iter (S t) second p) = 200
  ∧ possessionTimer (Nat.iter (S t) second p) = 0.
Proof.
  revert p. induction t as [|t IH]; intros p Hp Ht.
  - split.
    + intros k Hk. assert (k = 0%nat) as -> by lia. done.
    + cbn. unfold second, possessionTick. rewrite Hp, Ht. done.
  - assert (isPossessed (second p) = true
            ∧ possessionTimer (second p) = Z.of_nat (S t)) as [Hp1 Ht1].
    { unfold second, possessionTick. rewrite Hp, Ht.
      replace (0 <? Z.of_nat (S (S t))) with true by (symmetry; apply Z.ltb_lt; lia).
      replace (Z.of_nat (S (S t)) <=? 1) with false by (symmetry; apply Z.leb_gt; lia).
      cbn [andb]. destruct p; cbn in *. split; [done | lia]. }
    destruct (IH (second p) Hp1 Ht1) as (Hduring & Hend).
    split.
    + intros [|k] Hk; [done|].
      rewrite Nat.iter_succ_r. destruct (Hduring k) as [? ?]; [lia|].
      split; [done|]. replace (S (S t) - S k)%nat with (S t - k)%nat by lia. done.
    + by rewrite Nat.iter_succ_r.
Qed.

(** Without a possession the sanity meter loses half a point per second;
    the second at which it reaches 0 starts a possession of 30 seconds, and
    no second before does. *)
Theorem sanity_runs_out (p : PanelState) (h : nat) :
  isPossessed p = false →
  sanityHalves p = Z.of_nat (S h) →
  (∀ k, (k <= h)%nat →
     isPossessed (Nat.iter k second p) = false
     ∧ sanityHalves (Nat.iter k second p) = Z.of_nat (S h - k))
  ∧ isPossessed (Nat.iter (S h) second p) = true
  ∧ possessionTimer (Nat.iter (S h) second p) = 30
  ∧ sanityHalves (Nat.iter (S h) second p) = 0.
Proof.
  revert p. induction h as [|h IH]; intros p Hp Hs.
  - split.
    + intros k Hk. assert (k = 0%nat) as -> by lia. done.
    + unfold Nat.iter, second, sanityEffect, sanityTick.
      destruct p; cbn in *; subst; done.
  - assert (isPossessed (second p) = false
            ∧ sanityHalves (second p) = Z.of_nat (S h)) as [Hp1 Hs1].
    { unfold second, sanityEffect, sanityTick. rewrite Hp, Hs.
      replace (0 <? Z.of_nat (S (S h))) with true by (symmetry; apply Z.ltb_lt; lia).
      cbn [negb andb]. destruct p; cbn in *.
      replace (Z.max 0 (Z.of_nat (S (S h)) - 1)) with (Z.of_nat (S h)) by lia.
      replace (Z.of_nat (S h) <=? 0) with false by (symmetry; apply Z.leb_gt; lia).
      cbn. subst. done. }
    destruct (IH (second p) Hp1 Hs1) as (Hduring & Hend).
    split.
    + intros [|k] Hk; [done|].
      rewrite Nat.iter_succ_r. destruct (Hduring k) as [? ?]; [lia|].
      split; [done|]. replace (S (S h) - S k)%nat with (S h - k)%nat by lia. done.
    + by rewrite Nat.iter_succ_r.
Qed.

(** ** The decoder panel *)

(** [REVERSE_MORSE] maps the pulse string of every entry of [MORSE_CODE] back
    to its character. *)
Lemma REVERSE_MORSE_lookup (k pulses : jsstring) :
  MORSE_CODE !! k = Some pulses → REVERSE_MORSE !! pulses = Some k.
Proof.
  intros Henc. unfold REVERSE_MORSE.
  apply fromEntries_lookup.
  - rewrite <- list_fmap_compose.
    erewrite list_fmap_ext; [exact MORSE_CODE_pulses_NoDup|].
    by intros i [k' v] _.
  - apply list_elem_of_fmap. exists (k, pulses). split; [done|].
    by apply elem_of_map_to_list.
Qed.

(** The entries of the table: the character is not the empty string, the
    pulse string is not empty and holds no white space. *)
Lemma MORSE_CODE_shape (k pulses : jsstring) :
  MORSE_CODE !! k = Some pulses →
  truthy k = true ∧ truthy pulses = true
  ∧ Forall (λ c, isWhiteSpace c = false) pulses.
Proof.
  intros Hk. apply MORSE_CODE_lookup in Hk.
  assert (Forall (λ kv : jsstring * jsstring,
                    truthy kv.1 = true ∧ truthy kv.2 = true
                    ∧ Forall (λ c, isWhiteSpace c = false) kv.2) MORSE_ENTRIES) as Hall
    by (apply (bool_decide_unpack _); vm_compute; exact I).
  eapply Forall_forall in Hall; [|exact Hk]. exact Hall.
Qed.

Lemma join_nil_mjoin (parts : list jsstring) : join [] parts = mjoin parts.
Proof.
  induction parts as [|p parts IH]; [done|].
  destruct parts as [|q parts]; [cbn; by rewrite app_nil_r|].
  change (join [] (p :: q :: parts)) with (p ++ [] ++ join [] (q :: parts)).
  rewrite IH. done.
Qed.

Lemma mapM_cons_eq {A B} (f : A → option B) (x : A) (l : list A) :
  mapM f (x :: l) = y ← f x; k ← mapM f l; mret (y :: k).
Proof. reflexivity. Qed.

(** What [textToMorse] keeps and what [handleDecode] makes of it, character
    by character. *)
Lemma decode_kept_characters (text : jsstring) :
  mapM decodePart
    (filter (λ m, truthy m) ((λ c, default [] (MORSE_CODE !! [c])) <$> text))
  = Some ((λ c, [c]) <$> filter supported text).
Proof.
  induction text as [|c text IH]; [done|].
  rewrite fmap_cons. unfold supported at 1.
  destruct (MORSE_CODE !! [c]) as [pulses|] eqn:Hc.
  - destruct (MORSE_CODE_shape _ _ Hc) as (_ & Hpulses & _).
    cbn [default]. rewrite filter_cons_True by (apply Is_true_true; exact Hpulses).
    rewrite (filter_cons_True supported) by (unfold supported; by rewrite Hc).
    rewrite fmap_cons.
    rewrite mapM_cons_eq, IH. unfold id, decodePart.
    rewrite (REVERSE_MORSE_lookup _ _ Hc). done.
  - cbn [default]. rewrite filter_cons_False by (cbn; tauto).
    rewrite (filter_cons_False supported); [done|].
    unfold supported. rewrite Hc. by intros [? ?].
Qed.

Lemma dropWhile_head {A} (f : A → bool) (l : list A) :
  (∀ x, head l = Some x → f x = false) → dropWhile f l = l.
Proof. destruct l as [|x l]; [done|]. intros H. cbn. by rewrite (H x). Qed.

(** [trim] keeps a string that neither starts nor ends with white space. *)
Lemma trim_id (s : jsstring) :
  (∀ c, head s = Some c → isWhiteSpace c = false) →
  (∀ c, last s = Some c → isWhiteSpace c = false) →
  trim s = s.
Proof.
  intros Hhead Hlast. unfold trim, trimStart, trimEnd.
  rewrite (dropWhile_head _ s Hhead).
  rewrite dropWhile_head; [apply reverse_involutive|].
  intros c Hc. apply Hlast. by rewrite <- head_reverse.
Qed.

Lemma splitWhiteSpace_word (inRun : bool) (p : jsstring) :
  Forall (λ c, isWhiteSpace c = false) p → p ≠ [] →
  splitWhiteSpace inRun p = [p].
Proof.
  intros Hp. revert inRun. induction Hp as [|c p Hc Hp IH]; intros inRun Hne; [done|].
  cbn. rewrite Hc. destruct p as [|c' p]; [done|].
  by rewrite IH.
Qed.

Lemma splitWhiteSpace_word_space (inRun : bool) (p s : jsstring) :
  Forall (λ c, isWhiteSpace c = false) p → p ≠ [] →
  splitWhiteSpace inRun (p ++ 32 :: s) = p :: splitWhiteSpace true s.
Proof.
  intros Hp. revert inRun. induction Hp as [|c p Hc Hp IH]; intros inRun Hne; [done|].
  cbn [app splitWhiteSpace]. rewrite Hc. destruct p as [|c' p].
  - cbn. done.
  - by rewrite IH.
Qed.

(** A text of words with one space between them splits into its words. *)
Lemma splitWhiteSpace_join (inRun : bool) (words : list jsstring) :
  words ≠ [] →
  Forall (λ w, w ≠ [] ∧ Forall (λ c, isWhiteSpace c = false) w) words →
  splitWhiteSpace inRun (join [32] words) = words.
Proof.
  intros Hne Hall. revert inRun.
  induction Hall as [|w words [Hw Hws] Hall IH]; intros inRun; [done|].
  destruct words as [|w' words].
  - by apply splitWhiteSpace_word.
  - change (join [32] (w :: w' :: words)) with (w ++ 32 :: join [32] (w' :: words)).
    rewrite splitWhiteSpace_word_space by done. by rewrite IH.
Qed.

Lemma join_head_last (words : list jsstring) (P : Z → Prop) :
  Forall (λ w, w ≠ [] ∧ Forall P w) words →
  (∀ c, head (join [32] words) = Some c → P c)
  ∧ (∀ c, last (join [32] words) = Some c → P c).
Proof.
  induction 1 as [|w words [Hw HP] Hall IH]; [done|].
  destruct words as [|w' words].
  - cbn. split; intros c Hc.
    + destruct w; [done|]. injection Hc as <-. by apply Forall_cons in HP as [? _].
    + apply last_Some_elem_of in Hc. by eapply Forall_forall in HP.
  - change (join [32] (w :: w' :: words)) with (w ++ 32 :: join [32] (w' :: words)).
    split; intros c Hc.
    + destruct w; [done|]. injection Hc as <-. by apply Forall_cons in HP as [? _].
    + destruct IH as [_ IH]. apply IH.
      rewrite last_app_cons, last_cons in Hc.
      destruct (last (join [32] (w' :: words))) eqn:Hl; [done|].
      apply last_None in Hl. exfalso.
      apply Forall_cons in Hall as [[Hw' _] _].
      destruct words; cbn in Hl; [done|]. by destruct w'.
Qed.

Section DecoderProperties.

Variable toUpperCase : jsstring → jsstring.

Lemma textToMorse_words (text : jsstring) :
  Forall (λ w, w ≠ [] ∧ Forall (λ c, isWhiteSpace c = false) w)
         (textToMorse toUpperCase text).
Proof.
  unfold textToMorse. apply Forall_forall. intros w Hw.
  apply list_elem_of_filter in Hw as [Hw Hin].
  apply list_elem_of_fmap in Hin as (c & -> & _).
  destruct (MORSE_CODE !! [c]) as [pulses|] eqn:Hc; [|done].
  destruct (MORSE_CODE_shape _ _ Hc) as (_ & Hpulses & Hws).
  split; [by destruct pulses | done].
Qed.

(** The Morse round trip of the component.  The pulse strings that
    [textToMorse] gives for a text, written with one space between them and
    handed to [handleDecode], decode to the upper-case text without the
    characters that the table does not have.  When no character is left, the
    decoder shows a question mark. *)
Theorem handleDecode_textToMorse (text : jsstring) :
  handleDecode (join (js " ") (textToMorse toUpperCase text)) =
  Some (match textToMorse toUpperCase text with
        | [] => js "?"
        | _ => filter supported (toUpperCase text)
        end).
Proof.
  pose proof (textToMorse_words text) as Hwords.
  destruct (textToMorse toUpperCase text) as [|w words] eqn:Hmorse; [done|].
  rewrite <- Hmorse in *. change (js " ") with [32].
  assert (textToMorse toUpperCase text ≠ []) as Hne by (by rewrite Hmorse).
  unfold handleDecode.
  destruct (join_head_last _ (λ c, isWhiteSpace c = false) Hwords) as [Hhead Hlast].
  rewrite (trim_id _ Hhead Hlast).
  rewrite splitWhiteSpace_join by done.
  unfold textToMorse. rewrite decode_kept_characters. cbn.
  rewrite join_nil_mjoin. f_equal.
  rewrite (mjoin_singletons (λ c, c)). apply list_fmap_id.
Qed.

End DecoderProperties.

Lemma trim_Forall (P : Z → Prop) (s : jsstring) : Forall P s → Forall P (trim s).
Proof.
  assert (∀ l, Forall P l → Forall P (dropWhile isWhiteSpace l)) as Hdrop.
  { induction 1 as [|c l Hc Hl IH]; cbn; [done|].
    destruct (isWhiteSpace c); [done | by constructor]. }
  intros Hs. unfold trim, trimStart, trimEnd.
  apply Forall_reverse, Hdrop, Forall_reverse, Hdrop, Hs.
Qed.

Lemma splitWhiteSpace_Forall (P : Z → Prop) (inRun : bool) (s : jsstring) :
  Forall P s → Forall (Forall P) (splitWhiteSpace inRun s).
Proof.
  intros Hs. revert inRun. induction Hs as [|c s Hc Hs IH]; intros inRun.
  - cbn. by repeat constructor.
  - cbn. destruct (isWhiteSpace c).
    + destruct inRun; [apply IH | constructor; [done | apply IH]].
    + specialize (IH false). destruct (splitWhiteSpace false s) as [|p ps].
      * by repeat constructor.
      * apply Forall_cons in IH as [Hp Hps]. constructor; [by constructor | done].
Qed.

(** Every name that [Object.prototype] has holds a lower-case letter. *)
Lemma OBJECT_PROTOTYPE_KEYS_lower (p : jsstring) :
  p ∈ OBJECT_PROTOTYPE_KEYS → Exists isLower p.
Proof.
  intros Hp.
  assert (Forall (Exists isLower) OBJECT_PROTOTYPE_KEYS) as Hall.
  { unfold isLower. apply (bool_decide_unpack _). vm_compute. exact I. }
  by eapply Forall_forall in Hall.
Qed.

Lemma REVERSE_MORSE_empty : REVERSE_MORSE !! ([] : jsstring) = None.
Proof. vm_compute. reflexivity. Qed.

(** The decoder on what its input field can hold (the field stores its
    value upper-cased, so without a lower-case ASCII letter): the lookup never
    finds an inherited built-in; every part of the input becomes exactly one
    character, its entry in [REVERSE_MORSE] or a question mark.  A blank
    input has one empty part and decodes to one question mark. *)
Theorem handleDecode_total (decodeInput : jsstring) :
  Forall (λ c, ¬ isLower c) decodeInput →
  let parts := splitWhiteSpace false (trim decodeInput) in
  handleDecode decodeInput =
    Some (join [] ((λ p, default (js "?") (REVERSE_MORSE !! p)) <$> parts))
  ∧ (∀ out, handleDecode decodeInput = Some out → length out = length parts)
  ∧ (Forall (λ c, isWhiteSpace c = true) decodeInput →
     handleDecode decodeInput = Some (js "?")).
Proof.
  intros Hupper parts.
  assert (Forall (Forall (λ c, ¬ isLower c)) parts) as Hparts
    by (apply splitWhiteSpace_Forall, trim_Forall, Hupper).
  assert (mapM decodePart parts =
          Some ((λ p, default (js "?") (REVERSE_MORSE !! p)) <$> parts)
          ∧ Forall (λ d, length d = 1%nat)
                   ((λ p, default (js "?") (REVERSE_MORSE !! p)) <$> parts))
    as [Hmap Hone].
  { clear -Hparts. induction Hparts as [|p parts Hp Hparts [IH1 IH2]]; [done|].
    rewrite mapM_cons_eq, IH1, fmap_cons. unfold decodePart.
    destruct (REVERSE_MORSE !! p) as [ch|] eqn:Hrev; cbn [default].
    - assert (MORSE_CODE !! ch = Some p) as Hch.
      { unfold REVERSE_MORSE in Hrev. apply fromEntries_lookup in Hrev.
        - apply list_elem_of_fmap in Hrev as ([k v] & [= -> ->] & Hin).
          by apply elem_of_map_to_list in Hin.
        - rewrite <- list_fmap_compose.
          erewrite list_fmap_ext; [exact MORSE_CODE_pulses_NoDup|].
          by intros i [k' v] _. }
      apply MORSE_CODE_lookup in Hch.
      assert (Forall (λ kv : jsstring * jsstring, length kv.1 = 1%nat) MORSE_ENTRIES)
        as Hkeys by (apply (bool_decide_unpack _); vm_compute; exact I).
      eapply Forall_forall in Hkeys; [|exact Hch]. cbn in Hkeys.
      clear Hrev Hch IH1.
      destruct ch as [|c [|c' ch]]; [discriminate Hkeys | | discriminate Hkeys].
      split; [reflexivity | by constructor].
    - rewrite bool_decide_eq_false_2.
      + split; [done | by constructor].
      + intros Hin. apply OBJECT_PROTOTYPE_KEYS_lower in Hin.
        apply Exists_exists in Hin as (c & Hc & Hlow).
        eapply Forall_forall in Hp; [|exact Hc]. exact (Hp Hlow). }
  assert (handleDecode decodeInput =
          Some (join [] ((λ p, default (js "?") (REVERSE_MORSE !! p)) <$> parts)))
    as Hdec by (unfold handleDecode; fold parts; by rewrite Hmap).
  split_and!.
  - exact Hdec.
  - intros out Hout. rewrite Hdec in Hout. apply (inj Some) in Hout as <-.
    rewrite join_nil_mjoin.
    rewrite <- (length_fmap (λ p, default (js "?") (REVERSE_MORSE !! p)) parts).
    clear -Hone. induction Hone as [|d ds Hd Hds IH]; [reflexivity|].
    change (mjoin (d :: ds)) with (d ++ mjoin ds).
    rewrite length_app, IH, Hd. reflexivity.
  - intros Hblank. rewrite Hdec. subst parts. rewrite (trim_blank _ Hblank).
    change (splitWhiteSpace false []) with [[] : jsstring].
    rewrite list_fmap_singleton, REVERSE_MORSE_empty. reflexivity.
Qed.

(** ** The glyph *)

Lemma list_alter_alter {A} (f g : A → A) (i : nat) (l : list A) :
  alter f i (alter g i l) = alter (λ a, f (g a)) i l.
Proof.
  revert i. induction l as [|a l IH]; intros [|i]; try done.
  cbn. f_equal. apply IH.
Qed.

Lemma foldl_pointwise {A B} (f g : A → B → A) (a : A) (l : list B) :
  (∀ a b, f a b = g a b) → foldl f a l = foldl g a l.
Proof.
  intros Hfg. revert a. induction l as [|b l IH]; intros a; [done|].
  cbn. by rewrite Hfg, IH.
Qed.

(** Eight lines, each altered once. *)
Lemma alter_rows {A} (P : nat → A → A) (r : A) :
  foldl (λ g y, alter (P y) y g) (replicate 8 r) (seq 0 8) = (λ y, P y r) <$> seq 0 8.
Proof. reflexivity. Qed.

Section Glyph.

Variable cell : nat → nat → bool.

Lemma paint_inner (y : nat) (xs : list nat) (g : list (list Z)) :
  foldl (λ g x,
    if cell y x
    then alter (λ row, <[(8 - 1 - x)%nat := BLOCK_FULL]> (<[x := BLOCK_FULL]> row)) y g
    else g) g xs
  = alter (λ row, paintRow cell y row xs) y g.
Proof.
  revert g. induction xs as [|x xs IH]; intros g.
  - cbn. symmetry. apply list_alter_id. done.
  - cbn [foldl]. rewrite IH. unfold paintRow. cbn [foldl].
    destruct (cell y x); [|done].
    by rewrite list_alter_alter.
Qed.

Lemma paintRow_cells (y : nat) :
  paintRow cell y (replicate 8 BLOCK_LIGHT) (seq 0 4)
  = (λ x, if cell y (x `min` (7 - x)) then BLOCK_FULL else BLOCK_LIGHT) <$> seq 0 8.
Proof.
  unfold paintRow. cbn.
  destruct (cell y 0), (cell y 1), (cell y 2), (cell y 3); reflexivity.
Qed.

Lemma paintGrid_cells :
  foldl (λ g y,
    foldl (λ g x,
      if cell y x
      then alter (λ row, <[(8 - 1 - x)%nat := BLOCK_FULL]> (<[x := BLOCK_FULL]> row)) y g
      else g) g (seq 0 (8 / 2)))
    (replicate 8 (replicate 8 BLOCK_LIGHT)) (seq 0 8)
  = (λ y, (λ x, if cell y (x `min` (7 - x)) then BLOCK_FULL else BLOCK_LIGHT) <$> seq 0 8)
    <$> seq 0 8.
Proof.
  change (8 / 2)%nat with 4%nat.
  etrans.
  { apply foldl_pointwise. intros g y. apply paint_inner. }
  etrans; [exact (alter_rows (λ y row, paintRow cell y row (seq 0 4)) _)|].
  apply list_fmap_ext. intros _ y _. apply paintRow_cells.
Qed.

Lemma glyph_row_shape (y : nat) :
  let row := (λ x, if cell y (x `min` (7 - x)) then BLOCK_FULL else BLOCK_LIGHT) <$> seq 0 8 in
  length row = 8%nat ∧ reverse row = row
  ∧ Forall (λ c, c = BLOCK_FULL ∨ c = BLOCK_LIGHT) row.
Proof.
  cbn. split_and!; [done | done |].
  repeat (apply Forall_cons; split; [destruct (cell y _); auto|]).
  apply Forall_nil_2.
Qed.

End Glyph.

(** The glyph in full: eight lines of eight cells; the cell of line [y] and
    column [x] is a full block exactly when [glyphCell] holds at [y] and the
    smaller of [x] and [7 - x], and a light block otherwise.  So every line
    reads the same from both ends, for every text, the empty one too. *)
Theorem generateGlyph_cells (text : jsstring) :
  let rows := (λ y, glyphAt text y <$> seq 0 8) <$> seq 0 8 in
  generateGlyph text = join [10] rows
  ∧ Forall (λ row, length row = 8%nat ∧ reverse row = row
                   ∧ Forall (λ c, c = BLOCK_FULL ∨ c = BLOCK_LIGHT) row) rows.
Proof.
  intros rows. split.
  - unfold generateGlyph. f_equal.
    exact (paintGrid_cells (glyphCell text (glyphHash text))).
  - subst rows. apply Forall_fmap, Forall_forall. intros y _.
    exact (glyph_row_shape (glyphCell text (glyphHash text)) y).
Qed.

(** ** The text transforms *)

Lemma join_sep_length (items : list jsstring) (n : nat) :
  Forall (λ it, length it = n) items →
  length (join [32] items) = (length items * (n + 1) - 1)%nat.
Proof.
  induction 1 as [|p items Hp Hitems IH]; [done|].
  destruct items as [|q items].
  - cbn. lia.
  - change (join [32] (p :: q :: items)) with (p ++ [32] ++ join [32] (q :: items)).
    rewrite !length_app, IH, Hp. cbn [length]. lia.
Qed.

(** *** [toBinary] *)

Lemma toString2_bits8 (c : Z) : 0 <= c < 256 → padStart0 8 (toString2 c) = bits8 c.
Proof.
  intros Hc.
  assert (Forall (λ n : nat, padStart0 8 (toString2 (Z.of_nat n)) = bits8 (Z.of_nat n))
                 (seq 0 256)) as Hall
    by (apply (bool_decide_unpack _); vm_compute; exact I).
  rewrite Forall_forall in Hall. specialize (Hall (Z.to_nat c)).
  rewrite Z2Nat.id in Hall by lia. apply Hall, elem_of_seq. lia.
Qed.

Lemma bin_digits_length (p : positive) : length (bin_digits p) = Pos.size_nat p.
Proof.
  induction p as [p IH|p IH|]; cbn; [| |done]; rewrite length_app, IH; cbn; lia.
Qed.

(** The binary display of a text of Latin-1: every character becomes the
    eight bits of its code unit, the highest first, with one space between
    the characters; so [n] characters give [9 * n - 1] code units. *)
Theorem toBinary_bits (text : jsstring) :
  Forall isLatin1 text →
  toBinary text = join (js " ") (bits8 <$> text)
  ∧ length (toBinary text) = (9 * length text - 1)%nat.
Proof.
  intros Htext.
  assert (toBinary text = join (js " ") (bits8 <$> text)) as Heq.
  { unfold toBinary. f_equal. apply Forall_fmap_ext_1.
    eapply Forall_impl; [exact Htext|]. intros c Hc. by apply toString2_bits8. }
  split; [exact Heq|].
  rewrite Heq. change (js " ") with [32].
  rewrite (join_sep_length _ 8), length_fmap; [lia|].
  apply Forall_fmap, Forall_forall. by intros c _.
Qed.

(** Beyond Latin-1 the item of a character is longer than eight digits: the
    display then has no fixed width per character. *)
Theorem toBinary_wide_character (c : Z) :
  256 <= c → (8 < length (toBinary [c]))%nat.
Proof.
  intros Hc. unfold toBinary. cbn [fmap list_fmap join]. unfold padStart0.
  rewrite length_app. destruct c as [|p|p]; [lia| |lia].
  cbn [toString2]. rewrite bin_digits_length.
  assert (Pos.size_nat 256 <= Pos.size_nat p)%nat as Hsize.
  { destruct (decide (p = 256%positive)) as [->|Hne]; [done|].
    apply Pos.size_nat_monotone. lia. }
  change (Pos.size_nat 256) with 9%nat in Hsize. lia.
Qed.

(** *** [caesarEncrypt] *)

Lemma caesarUnit_other (shift c : Z) : ¬ isUpper c → caesarUnit shift c = c.
Proof.
  intros Hc. unfold caesarUnit, isUpper in *.
  destruct (65 <=? c) eqn:H1, (c <=? 90) eqn:H2; cbn; try done. lia.
Qed.

Lemma caesarUnit_upper (shift c : Z) :
  0 <= shift <= 2 ^ 53 - 26 → isUpper c → isUpper (caesarUnit shift c).
Proof.
  intros Hs Hc. rewrite caesarUnit_letter by done.
  pose proof (Z.mod_pos_bound (c - 65 + shift) 26). unfold isUpper. lia.
Qed.

Lemma caesarUnit_compose (a b c : Z) :
  0 <= a → 0 <= b → a + b <= 2 ^ 53 - 26 →
  caesarUnit b (caesarUnit a c) = caesarUnit (a + b) c.
Proof.
  intros Ha Hb Hab. destruct (decide (isUpper c)) as [Hc|Hc].
  - pose proof (caesarUnit_upper a c ltac:(lia) Hc) as Hc'.
    rewrite (caesarUnit_letter b) by (done || lia).
    rewrite !(caesarUnit_letter _ c) by (done || lia).
    replace ((c - 65 + a) mod 26 + 65 - 65 + b) with ((c - 65 + a) mod 26 + b) by lia.
    rewrite Z.add_mod_idemp_l by lia. f_equal. f_equal. lia.
  - rewrite (caesarUnit_other a c) by done. by rewrite !(caesarUnit_other _ c).
Qed.

Lemma caesarUnit_period (a b c : Z) :
  0 <= a → 0 <= b → a + 26 * b <= 2 ^ 53 - 26 →
  caesarUnit (a + 26 * b) c = caesarUnit a c.
Proof.
  intros Ha Hb Hab. destruct (decide (isUpper c)) as [Hc|Hc].
  - rewrite !caesarUnit_letter by (done || lia). f_equal.
    replace (c - 65 + (a + 26 * b)) with (c - 65 + a + b * 26) by lia.
    apply Z.mod_add. lia.
  - by rewrite !(caesarUnit_other _ c).
Qed.

(** Shifts that are not negative add up, and only the shift modulo 26
    counts, as long as the shifts stay at most 2^53 - 26, where the sum with
    the letter is exact; the text keeps its length for every shift.  (The
    shift field of the panel takes every number that [parseInt] reads, not
    only 1 to 25.)  The bound is needed: from 2^53 on the sum is rounded
    and neighbouring letters fall together, [AB] becomes [GG] at the shift
    2^53, which is 6 modulo 26. *)
Theorem caesarEncrypt_compose (text : jsstring) (a b : Z) :
  0 <= a → 0 <= b →
  (a + b <= 2 ^ 53 - 26 →
   caesarEncrypt (caesarEncrypt text a) b = caesarEncrypt text (a + b))
  ∧ (a + 26 * b <= 2 ^ 53 - 26 →
     caesarEncrypt text (a + 26 * b) = caesarEncrypt text a)
  ∧ length (caesarEncrypt text a) = length text
  ∧ caesarEncrypt (js "AB") (2 ^ 53) = js "GG"
  ∧ caesarEncrypt (js "AB") 6 = js "GH".
Proof.
  intros Ha Hb. rewrite !caesarEncrypt_fmap. split_and!.
  - intros Hab. rewrite <- list_fmap_compose. apply list_fmap_ext. intros _ c _.
    by apply caesarUnit_compose.
  - intros Hab. apply list_fmap_ext. intros _ c _. by apply caesarUnit_period.
  - apply length_fmap.
  - vm_compute. reflexivity.
  - vm_compute. reflexivity.
Qed.

(** A negative shift above -26 does not wrap around: the remainder of a
    negative number is negative in JavaScript, so every letter is moved down
    by the shift, below [A] where the alphabet ends (A with shift -1 becomes
    the character before it, an at sign). *)
Theorem caesarEncrypt_negative_shift (text : jsstring) (shift : Z) :
  -26 < shift < 0 → Forall isUpper text →
  caesarEncrypt text shift = (λ c, c + shift) <$> text.
Proof.
  intros Hs Htext. rewrite caesarEncrypt_fmap. apply Forall_fmap_ext_1.
  eapply Forall_impl; [exact Htext|]. intros c Hc. unfold isUpper in Hc.
  unfold caesarUnit.
  replace ((65 <=? c) && (c <=? 90)) with true
    by (symmetry; apply andb_true_iff; lia).
  rewrite roundDouble_small by lia.
  assert (Z.rem (c - 65 + shift) 26 = c - 65 + shift) as ->.
  { destruct (decide (0 <= c - 65 + shift)) as [Hpos|Hneg].
    - apply Z.rem_small. lia.
    - replace (c - 65 + shift) with (- (65 - c - shift)) by lia.
      rewrite Z.rem_opp_l'. f_equal. apply Z.rem_small. lia. }
  replace (c - 65 + shift + 65) with (c + shift) by lia.
  unfold toUint16. apply Z.mod_small. lia.
Qed.

(** *** [xorEncrypt] *)

Lemma js_xor_small (n c k : Z) :
  0 <= n <= 31 → 0 <= c < 2 ^ n → 0 <= k < 2 ^ n →
  js_xor c k = Z.lxor c k ∧ 0 <= Z.lxor c k < 2 ^ n.
Proof.
  intros Hn Hc Hk.
  assert (2 ^ n <= 2 ^ 31) as Hpow by (apply Z.pow_le_mono_r; lia).
  assert (0 <= Z.lxor c k < 2 ^ n) as Hx.
  { pose proof (lxor_mod_pow2 c k n ltac:(lia)) as Hmod.
    rewrite (Z.mod_small c), (Z.mod_small k) in Hmod by lia.
    rewrite <- Hmod. apply Z.mod_pos_bound. lia. }
  split; [|done].
  unfold js_xor. rewrite (toInt32_small c), (toInt32_small k) by lia.
  apply toInt32_small. lia.
Qed.

Lemma lxor_high (c k : Z) : 0 <= c < 256 → 256 <= k → 256 <= Z.lxor c k.
Proof.
  intros Hc Hk.
  assert (Z.shiftr (Z.lxor c k) 8 = Z.shiftr k 8) as Hhigh.
  { rewrite Z.shiftr_lxor, (Z.shiftr_div_pow2 c) by lia.
    change (2 ^ 8) with 256. rewrite Z.div_small by lia. apply Z.lxor_0_l. }
  rewrite !Z.shiftr_div_pow2 in Hhigh by lia. change (2 ^ 8) with 256 in Hhigh.
  assert (1 <= k / 256) by (apply Z.div_le_lower_bound; lia).
  destruct (decide (256 <= Z.lxor c k)) as [|Hlow]; [done|].
  assert (Z.lxor c k / 256 <= 0); [|lia].
  destruct (decide (0 <= Z.lxor c k)).
  - rewrite Z.div_small by lia. done.
  - apply Z.lt_le_incl, Z.div_lt_upper_bound; lia.
Qed.

Lemma hexItem_length (x : Z) :
  (0 <= x < 256 → length (hexItem x) = 2%nat)
  ∧ (256 <= x < 4096 → length (hexItem x) = 3%nat).
Proof.
  assert (Forall (λ n : nat, length (hexItem (Z.of_nat n)) = 2%nat) (seq 0 256)) as H2
    by (apply (bool_decide_unpack _); vm_compute; exact I).
  assert (Forall (λ n : nat, length (hexItem (Z.of_nat n)) = 3%nat) (seq 256 3840)) as H3
    by (apply (bool_decide_unpack _); vm_compute; exact I).
  rewrite Forall_forall in H2, H3. split; intros Hx.
  - specialize (H2 (Z.to_nat x)). rewrite Z2Nat.id in H2 by lia.
    apply H2, elem_of_seq. lia.
  - specialize (H3 (Z.to_nat x)). rewrite Z2Nat.id in H3 by lia.
    apply H3, elem_of_seq. lia.
Qed.

Section XorWidth.

Variable toUpperCase : jsstring → jsstring.
Hypothesis toUpperCase_ascii :
  ∀ s, is_ascii s → toUpperCase s = asciiUpper s.

(** The width of the XOR display for a text of Latin-1.  With a key number
    from 0 to 255 every character becomes two hexadecimal digits, so [n]
    characters give [3 * n - 1] code units.  The key field takes three
    characters: with a key number from 256 to 4095 every character becomes
    three digits. *)
Theorem xorEncrypt_width (text key : jsstring) :
  Forall isLatin1 text →
  let keyNum := numOr (parseInt10 key) 11 in
  (0 <= keyNum < 256 →
   length (xorEncrypt toUpperCase text key) = (3 * length text - 1)%nat)
  ∧ (256 <= keyNum < 4096 →
     length (xorEncrypt toUpperCase text key) = (4 * length text - 1)%nat).
Proof.
  intros Htext keyNum.
  rewrite (xorEncrypt_items toUpperCase toUpperCase_ascii). fold keyNum.
  split; intros Hkey.
  - rewrite (join_sep_length _ 2), !length_fmap; [lia|].
    apply Forall_fmap, Forall_fmap. eapply Forall_impl; [exact Htext|].
    intros c Hc. unfold isLatin1 in Hc. cbn.
    destruct (js_xor_small 8 c keyNum) as [-> Hx]; [lia..|].
    by apply hexItem_length.
  - rewrite (join_sep_length _ 3), !length_fmap; [lia|].
    apply Forall_fmap, Forall_fmap. eapply Forall_impl; [exact Htext|].
    intros c Hc. unfold isLatin1 in Hc. cbn.
    destruct (js_xor_small 12 c keyNum) as [-> Hx]; [lia..|].
    apply hexItem_length. split; [|lia]. apply lxor_high; lia.
Qed.

End XorWidth.

(** ** The log panel *)

Lemma sliceLast_snoc_reverse {A} (n : nat) (l : list A) (x : A) :
  reverse (sliceLast (S n) (l ++ [x])) = take (S n) (x :: reverse (sliceLast (S n) l)).
Proof.
  rewrite sliceLast_snoc, reverse_snoc. cbn [take]. f_equal.
  rewrite take_reverse. f_equal.
  change (drop (length (sliceLast (S n) l) - n) (sliceLast (S n) l))
    with (sliceLast n (sliceLast (S n) l)).
  rewrite sliceLast_sliceLast by lia. done.
Qed.

Section LogPanel.

Variable toUpperCase : jsstring → jsstring.

(** The text that a completed transmission logs is empty only when the
    message is. *)
Lemma display_empty (s : AppState) (text : jsstring) :
  display (encryptMessage toUpperCase s text) = [] → text = [].
Proof. unfold encryptMessage. by destruct (encryptionMode s). Qed.

(** The log panel after a transmission has completed: the new line comes
    first, with the clock reading and the text as encrypted for display, the
    lines that were shown follow in their order, and the panel keeps five
    lines at most. *)
Theorem logPanel_newest_first (now : jsstring) (s : AppState) :
  logPanel (completeTransmission toUpperCase now s) =
  take 5 ((now, display (encryptMessage toUpperCase s (message s))) :: logPanel s).
Proof.
  unfold logPanel.
  change (transmissionHistory (completeTransmission toUpperCase now s))
    with (transmissionHistory s ++ [entryOf toUpperCase now s]).
  rewrite sliceLast_snoc_reverse, fmap_take, fmap_cons. do 2 f_equal.
  unfold logLine, entryOf. cbn [h_timestamp h_encrypted h_message]. f_equal.
  destruct (display _) as [|c d] eqn:Hd; [|done].
  cbn. by apply display_empty in Hd.
Qed.

End LogPanel.

(** * Instances *)

(** [asciiUpper] is what [toUpperCase] is assumed to be on ASCII. *)
Lemma asciiUpper_ascii (s : jsstring) : is_ascii s → asciiUpper s = asciiUpper s.
Proof. reflexivity. Qed.

(** ** Where the code differs from the specification *)

(** After the appends of [A], [B] and [C], [getRecentTransmissions(2)]
    returns [C] and then [B]: its last element is [B], not the entry appended
    last. *)
Lemma getRecentTransmissions_last_is_older :
  TransmissionDB.getRecentTransmissions 2 storeABC = [entryC; entryB]
  ∧ last (TransmissionDB.getRecentTransmissions 2 storeABC) = Some entryB
  ∧ TransmissionDB.getRecentTransmissions 2 storeABC ≠ [entryB; entryC].
Proof. vm_compute. repeat split. discriminate. Qed.

(** ** The theorems at sample inputs *)

Lemma transmit_click_while_running_witness :
  isTransmitting transmittingAA = true
  ∧ transmitButton_onClick asciiUpper transmittingAA = (transmittingAA, []).
Proof.
  split; [reflexivity|].
  apply (transmit_click_while_running asciiUpper transmittingAA transmittingAA).
  reflexivity.
Defined.

Lemma getRecentTransmissions_recent_first_witness :
  is_Some (TransmissionDB.db (TransmissionDB.init (TransmissionDB.fresh None)))
  ∧ TransmissionDB.wf (TransmissionDB.init (TransmissionDB.fresh None))
  ∧ (2 < length [entryA; entryB; entryC])%nat
  ∧ TransmissionDB.getRecentTransmissions (Z.of_nat 2) storeABC = [entryC; entryB].
Proof.
  assert (TransmissionDB.wf (TransmissionDB.init (TransmissionDB.fresh None))) as Hwf.
  { intros i j ri rj Hi. inversion Hi. }
  split; [by eexists|]. split; [exact Hwf|]. split; [simpl; lia|].
  apply (getRecentTransmissions_recent_first
           (TransmissionDB.init (TransmissionDB.fresh None))
           [entryA; entryB; entryC] (js "none") 2).
  - by eexists.
  - exact Hwf.
  - simpl. lia.
Defined.

Lemma sos_transmission_witness :
  encryptionMode (typed (js "SOS")) = none
  ∧ message (typed (js "SOS")) = js "SOS"
  ∧ morseOutput (handleTransmit asciiUpper (typed (js "SOS"))).1
    = [js "..."; js "---"; js "..."]
  ∧ h_message <$>
      transmissionHistory
        (completeTransmission asciiUpper (js "12:00:00")
           (threeCharactersOn (handleTransmit asciiUpper (typed (js "SOS"))).1))
    = [js "SOS"].
Proof.
  split; [reflexivity|]. split; [reflexivity|].
  destruct (sos_transmission asciiUpper asciiUpper_ascii (typed (js "SOS"))
              (handleTransmit asciiUpper (typed (js "SOS"))).1 eq_refl
              (or_introl (conj eq_refl eq_refl)))
    as (Hmorse & _ & _ & _ & Hruns).
  split; [exact Hmorse|].
  destruct (Hruns (completeTransmission asciiUpper (js "12:00:00")
                     (threeCharactersOn (handleTransmit asciiUpper (typed (js "SOS"))).1)))
    as [(Htx & _)|(_ & now & Hlog & _)].
  - eapply rtc_r; [apply threeCharactersOn_run|].
    apply step_complete; [reflexivity | vm_compute; lia].
  - discriminate Htx.
  - rewrite Hlog. reflexivity.
Defined.


Lemma decode_encode_witness :
  MORSE_CODE !! asciiUpper (js "s") = Some (js "...")
  ∧ REVERSE_MORSE !! js "..." = Some (asciiUpper (js "s")).
Proof.
  assert (MORSE_CODE !! asciiUpper (js "s") = Some (js "...")) as Henc
    by (vm_compute; reflexivity).
  split; [exact Henc|].
  exact (decode_encode asciiUpper (js "s") (js "...") Henc).
Defined.

Lemma caesarEncrypt_inverse_witness :
  0 <= 3 <= 25
  ∧ caesarEncrypt (caesarEncrypt (js "HELLO, World") 3) (26 - 3) = js "HELLO, World".
Proof. split; [lia|]. apply caesarEncrypt_inverse. lia. Defined.

Lemma xorDecode_xorEncrypt_witness :
  wf_string (js "Hi!")
  ∧ xorDecode (xorEncrypt asciiUpper (js "Hi!") (js "7")) (js "7") = Some (js "Hi!").
Proof.
  assert (wf_string (js "Hi!")) as Hwf
    by (unfold wf_string, wf_char; cbn; repeat (constructor; [lia|]); constructor).
  split; [exact Hwf|].
  exact (proj1 (xorDecode_xorEncrypt asciiUpper asciiUpper_ascii (js "Hi!") (js "7") Hwf)).
Defined.

Lemma blank_message_rejected_witness :
  Forall (λ c, isWhiteSpace c = true) (message (typed (js "   ")))
  ∧ handleTransmit asciiUpper (typed (js "   ")) = (typed (js "   "), []).
Proof.
  assert (Forall (λ c, isWhiteSpace c = true) (message (typed (js "   ")))) as Hblank
    by (cbn; repeat (constructor; [reflexivity|]); constructor).
  split; [exact Hblank|].
  exact (proj1 (blank_message_rejected asciiUpper (typed (js "   ")) Hblank)).
Defined.

Lemma xorEncrypt_key_zero_witness :
  parseInt10 (js "0") = Some 0
  ∧ xorEncrypt asciiUpper (js "HELP") (js "0") = xorEncrypt asciiUpper (js "HELP") (js "11").
Proof.
  split; [reflexivity|].
  exact (xorEncrypt_key_zero asciiUpper (js "HELP") (js "0") eq_refl).
Defined.

Lemma transmission_completes_witness :
  isTransmitting transmittingAA = true
  ∧ rtc (step asciiUpper) transmittingAA (threeCharactersOn transmittingAA)
  ∧ isTransmitting (threeCharactersOn transmittingAA) = true
  ∧ (length (morseOutput (threeCharactersOn transmittingAA))
     ≤ currentSignalIndex (threeCharactersOn transmittingAA))%nat
  ∧ h_message <$>
      transmissionHistory
        (transmissionEffect asciiUpper (js "12:00:00")
           (threeCharactersOn transmittingAA)).1
    = [js "AA"].
Proof.
  assert (length (morseOutput (threeCharactersOn transmittingAA))
          ≤ currentSignalIndex (threeCharactersOn transmittingAA))%nat as Hlast
    by (vm_compute; lia).
  split_and!; [reflexivity | apply threeCharactersOn_run | reflexivity | exact Hlast |].
  destruct (transmission_completes asciiUpper (js "12:00:00") transmittingAA
              (threeCharactersOn transmittingAA) eq_refl
              (threeCharactersOn_run asciiUpper transmittingAA))
    as [Hrunning _].
  destruct (Hrunning eq_refl) as (_ & _ & _ & _ & Hdone).
  destruct (Hdone Hlast) as (_ & Hlog & _).
  rewrite Hlog. reflexivity.
Defined.

Lemma preset_replaces_running_transmission_witness :
  isTransmitting transmittingAA = true
  ∧ (∃ new,
       transmissionHistory
         (completeTransmission asciiUpper (js "12:00:09")
            (threeCharactersOn
               (handlePreset_timeout asciiUpper (js "RUN")
                  (presetButton_onClick (js "RUN") transmittingAA).1)))
       = transmissionHistory transmittingAA ++ new
       ∧ (length new ≤ 2)%nat
       ∧ Forall (λ e, h_message e = js "RUN" ∨ h_message e = []) new).
Proof.
  split; [reflexivity|].
  apply (preset_replaces_running_transmission asciiUpper (js "RUN") transmittingAA
           (presetButton_onClick (js "RUN") transmittingAA).1).
  - reflexivity.
  - apply rtc_refl.
  - eapply rtc_r; [apply threeCharactersOn_run|].
    apply step_complete; [reflexivity | vm_compute; lia].
Defined.

Lemma sos_replaces_running_transmission_witness :
  isTransmitting transmittingAA = true
  ∧ (∃ new,
       transmissionHistory
         (completeTransmission asciiUpper (js "12:00:09") (threeCharactersOn sosDuringAA))
       = transmissionHistory transmittingAA ++ new
       ∧ (length new ≤ 2)%nat
       ∧ Forall (λ e, h_message e = js "SOS" ∨ h_message e = []) new).
Proof.
  split; [reflexivity|].
  apply (sos_replaces_running_transmission asciiUpper transmittingAA
           (sosButton_onClick transmittingAA).1).
  - reflexivity.
  - apply rtc_refl.
  - eapply rtc_r; [apply threeCharactersOn_run|].
    apply step_complete; [reflexivity | vm_compute; lia].
Defined.

Lemma loadDatabase_most_recent_last_witness :
  TransmissionDB.ids_increasing (TransmissionDB.transmissions savedABC)
  ∧ h_message <$> transmissionHistory (loadDatabase (initialState (Some savedABC)))
    = [js "A"; js "B"; js "C"].
Proof.
  assert (TransmissionDB.wf storeABC) as Hwf.
  { apply addAll_wf. intros i j ri rj Hi. inversion Hi. }
  assert (TransmissionDB.ids_increasing (TransmissionDB.transmissions savedABC)) as Hinc
    by exact Hwf.
  split; [exact Hinc|].
  rewrite (loadDatabase_most_recent_last savedABC Hinc). reflexivity.
Defined.


(** ** Instances of the further properties *)

Lemma session_store_ok_witness :
  db_ok {| TransmissionDB.transmissions := []; TransmissionDB.sqlite_sequence := 5 |}
  ∧ store_ok
      (foldl dbCall
         (TransmissionDB.fresh
            (Some {| TransmissionDB.transmissions := [];
                     TransmissionDB.sqlite_sequence := 5 |}))
         [CallInit; CallAdd (js "A") None (js "12:00:01") (js "none"); CallClear;
          CallAdd (js "B") None (js "12:00:02") (js "none"); CallSave]).
Proof.
  split; [apply db_ok_empty|].
  apply session_store_ok. intros d [= <-]. apply db_ok_empty.
Defined.

Lemma getAllTransmissions_after_appends_witness :
  is_Some (TransmissionDB.db storeABC)
  ∧ TransmissionDB.wf storeABC
  ∧ TransmissionDB.toRecent
      <$> TransmissionDB.getAllTransmissions
            (TransmissionDB.addAll [entryB; entryA] (js "none") storeABC)
    = reverse [entryB; entryA]
      ++ (TransmissionDB.toRecent <$> TransmissionDB.getAllTransmissions storeABC).
Proof.
  assert (is_Some (TransmissionDB.db storeABC)) as Hdb by (by eexists).
  assert (TransmissionDB.wf storeABC) as Hwf.
  { apply addAll_wf. intros i j ri rj Hi. inversion Hi. }
  split_and!; [exact Hdb | exact Hwf |].
  exact (proj1 (getAllTransmissions_after_appends storeABC [entryB; entryA] (js "none")
                  Hdb Hwf)).
Defined.

Lemma getRecentTransmissions_limit_witness :
  0 <= 2
  ∧ (length (TransmissionDB.getRecentTransmissions 2 storeABC) <= Z.to_nat 2)%nat.
Proof.
  split; [lia|].
  apply (proj2 (getRecentTransmissions_limit storeABC 2)). lia.
Defined.

Lemma ids_never_reused_witness :
  let st := foldl dbCall (TransmissionDB.fresh None)
              [CallInit; CallAdd (js "A") None (js "12:00:01") (js "none")] in
  let r := {| TransmissionDB.id := 1; TransmissionDB.message := js "A";
              TransmissionDB.encrypted := None;
              TransmissionDB.timestamp := js "12:00:01";
              TransmissionDB.encryption_mode := js "none" |} in
  store_ok st
  ∧ r ∈ TransmissionDB.getAllTransmissions st
  ∧ ∃ r',
      head (TransmissionDB.getAllTransmissions
              (TransmissionDB.addTransmission (js "B") None (js "12:00:02") (js "none")
                 (foldl dbCall st [CallClear])))
        = Some r'
      ∧ TransmissionDB.message r' = js "B" ∧ TransmissionDB.encrypted r' = None
      ∧ TransmissionDB.timestamp r' = js "12:00:02"
      ∧ TransmissionDB.id r < TransmissionDB.id r'.
Proof.
  intros st r.
  assert (store_ok st) as Hok.
  { subst st. cbn [foldl]. do 2 apply dbCall_store_ok. by apply fresh_store_ok. }
  assert (r ∈ TransmissionDB.getAllTransmissions st) as Hr by (by left).
  split_and!; [exact Hok | exact Hr |].
  exact (ids_never_reused st [CallClear] (js "B") None (js "12:00:02") (js "none") r
           Hok Hr).
Defined.

Lemma panel_stays_in_range_witness :
  rtc panel_step initialPanel
    (handleChannelChange_timeout 2 (idleState, second initialPanel)).2
  ∧ panel_ok (handleChannelChange_timeout 2 (idleState, second initialPanel)).2.
Proof.
  assert (rtc panel_step initialPanel
            (handleChannelChange_timeout 2 (idleState, second initialPanel)).2) as Hrun.
  { eapply rtc_l; [apply panel_second|].
    apply rtc_once. by apply panel_channel. }
  split; [exact Hrun|].
  exact (proj1 (panel_stays_in_range _ Hrun)).
Defined.

Lemma possession_lasts_witness :
  isPossessed (sanityEffect (setSanityHalves 0 initialPanel)) = true
  ∧ possessionTimer (sanityEffect (setSanityHalves 0 initialPanel)) = Z.of_nat 30
  ∧ isPossessed (Nat.iter 30 second (sanityEffect (setSanityHalves 0 initialPanel)))
    = false.
Proof.
  split_and!; [reflexivity | reflexivity |].
  exact (proj1 (proj2 (possession_lasts
                         (sanityEffect (setSanityHalves 0 initialPanel)) 29
                         eq_refl eq_refl))).
Defined.

Lemma sanity_runs_out_witness :
  isPossessed initialPanel = false
  ∧ sanityHalves initialPanel = Z.of_nat 200
  ∧ isPossessed (Nat.iter 200 second initialPanel) = true.
Proof.
  split_and!; [reflexivity | reflexivity |].
  exact (proj1 (proj2 (sanity_runs_out initialPanel 199 eq_refl eq_refl))).
Defined.

Lemma handleDecode_total_witness :
  Forall (λ c, ¬ isLower c) (js "... --- ...  .-.-")
  ∧ handleDecode (js "... --- ...  .-.-") = Some (js "SOS?").
Proof.
  assert (Forall (λ c, ¬ isLower c) (js "... --- ...  .-.-")) as Hupper.
  { cbn. repeat (apply Forall_cons; split; [unfold isLower; lia|]). apply Forall_nil_2. }
  split; [exact Hupper|].
  rewrite (proj1 (handleDecode_total _ Hupper)). vm_compute. reflexivity.
Defined.

Lemma toBinary_bits_witness :
  Forall isLatin1 (js "Hi")
  ∧ toBinary (js "Hi") = join (js " ") (bits8 <$> js "Hi").
Proof.
  assert (Forall isLatin1 (js "Hi")) as Htext.
  { cbn. repeat (apply Forall_cons; split; [unfold isLatin1; lia|]). apply Forall_nil_2. }
  split; [exact Htext|].
  exact (proj1 (toBinary_bits (js "Hi") Htext)).
Defined.

Lemma toBinary_wide_character_witness :
  256 <= 8364 ∧ (8 < length (toBinary [8364%Z]))%nat.
Proof. split; [lia|]. apply toBinary_wide_character. lia. Defined.

Lemma caesarEncrypt_compose_witness :
  0 <= 3 ∧ 0 <= 30 ∧ 3 + 30 <= 2 ^ 53 - 26
  ∧ caesarEncrypt (caesarEncrypt (js "HELLO") 3) 30 = caesarEncrypt (js "HELLO") (3 + 30).
Proof.
  split_and!; [lia | lia | lia |].
  apply (proj1 (caesarEncrypt_compose (js "HELLO") 3 30 ltac:(lia) ltac:(lia))). lia.
Defined.

Lemma caesarEncrypt_negative_shift_witness :
  -26 < -1 < 0
  ∧ Forall isUpper (js "ABC")
  ∧ caesarEncrypt (js "ABC") (-1) = (λ c, c + -1) <$> js "ABC".
Proof.
  assert (Forall isUpper (js "ABC")) as Htext.
  { cbn. repeat (apply Forall_cons; split; [unfold isUpper; lia|]). apply Forall_nil_2. }
  split_and!; [lia | lia | exact Htext |].
  apply caesarEncrypt_negative_shift; [lia | exact Htext].
Defined.

Lemma xorEncrypt_width_witness :
  Forall isLatin1 (js "Hi")
  ∧ 0 <= numOr (parseInt10 (js "11")) 11 < 256
  ∧ length (xorEncrypt asciiUpper (js "Hi") (js "11")) = (3 * length (js "Hi") - 1)%nat.
Proof.
  assert (Forall isLatin1 (js "Hi")) as Htext.
  { cbn. repeat (apply Forall_cons; split; [unfold isLatin1; lia|]). apply Forall_nil_2. }
  assert (0 <= numOr (parseInt10 (js "11")) 11 < 256) as Hkey
    by (vm_compute; split; [intros Hcmp; discriminate Hcmp | reflexivity]).
  split_and!; [exact Htext | apply Hkey | apply Hkey |].
  exact (proj1 (xorEncrypt_width asciiUpper asciiUpper_ascii (js "Hi") (js "11") Htext) Hkey).
Defined.
